(** * zksync2-go: the JSON-RPC provider and its confirmation waiters

    A shallow embedding of [Provider.go].  The provider talks to a remote
    node and, in [WaitMined] and [WaitFinalized], loops until the node
    reports progress or the caller's context is done.  Such code is
    interactive and may not terminate, so every method is an interaction
    tree over the events it performs (an RPC call, a call of the embedded
    Ethereum client, a [select] over the context and the ticker); the Go
    [for { ... }] loops are [ITree.iter].  A node is a table of answers,
    [run] executes a tree against it with fuel and keeps the trace of the
    events performed. *)

From ITree Require Import ITree.
From Stdlib Require Import List String ZArith Lia Bool Arith.
From Stdlib Require Import Permutation.
Import ListNotations.
Import ITreeNotations.
Local Open Scope itree_scope.
Local Open Scope list_scope.

(* ===================================================================== *)
(** * Go values                                                          *)
(* ===================================================================== *)

(** [common.Hash]: 32 bytes, read as a number. *)
Definition Hash := Z.

(** Modelled from the spec: the type [BlockNumber] and its value
    [BlockNumberFinalized] are declared outside [Provider.go].  The provider
    only passes them on to the node, as the tag of the "latest finalized
    block" it asks for. *)
Definition BlockNumber := string.
Definition BlockNumberFinalized : BlockNumber := "finalized"%string.

(** The error values the provider produces or passes on. *)
Inductive error : Type :=
| NotFound                                  (* ethereum.NotFound *)
| context_Canceled                          (* context.Canceled *)
| context_DeadlineExceeded                  (* context.DeadlineExceeded *)
| errors_New (text : string)                (* errors.New(text) *)
| fmt_Errorf (text : string) (err : error)  (* fmt.Errorf(text + ": %w", err) *)
| rpc_Error (code : Z) (text : string).     (* an error of the transport *)

(** [errors.Unwrap]. *)
Definition errors_Unwrap (e : error) : option error :=
  match e with
  | fmt_Errorf _ err => Some err
  | _ => None
  end.

(** Why a context is done.  [ctx.Err()] is, once [ctx.Done()] is closed,
    [Canceled] if the context was cancelled and [DeadlineExceeded] if its
    deadline passed. *)
Inductive ctxReason : Type := Canceled | DeadlineExceeded.

Definition ctx_Err (why : ctxReason) : error :=
  match why with
  | Canceled => context_Canceled
  | DeadlineExceeded => context_DeadlineExceeded
  end.

(** [x.Cmp(y)] of [big.Int]: -1, 0 or +1. *)
Definition Cmp (x y : Z) : Z :=
  match (x ?= y)%Z with
  | Lt => (-1)%Z
  | Eq => 0%Z
  | Gt => 1%Z
  end.

(** Modelled from the spec: the declaration of [TransactionReceipt] is not
    in [Provider.go].  The spec has a receipt as "a record keyed by
    transaction identifier, containing at minimum an optional block-number
    field"; the provider reads only that field, [BlockNumber] (written
    [BlockNumber_] here, the name being taken by the type above).  A Go
    pointer is an [option]: [None] is [nil]. *)
Record TransactionReceipt : Type := {
  TxHash : Hash;
  BlockNumber_ : option Z;        (* BlockNumber *big.Int *)
  Status : Z
}.

(** [types.Header] of go-ethereum, of which the provider reads [Number]; the
    decoder of a header refuses one without a number, so [Number] is never
    nil in a decoded header. *)
Record Header : Type := {
  Number : Z
}.

(** Modelled from the spec: [TransactionResponse], [L2ToL1MessageProof] and
    [BlockDetails] are declared outside [Provider.go].  The provider decodes
    them and hands them on without reading a field; what matters is whether
    the pointer is nil. *)
Record TransactionResponse : Type := { txResponseHash : Hash }.
Record L2ToL1MessageProof : Type := { proofId : Z; proofPath : list Hash }.
Record BlockDetails : Type := { detailsNumber : Z; detailsTimestamp : Z }.

(** [types.Block] of go-ethereum, as the embedded client returns it. *)
Record EthBlock : Type := { ethNumber : Z; ethHash : Hash }.

(** The two local [TmpBlock] structs. *)
Record TmpBlockByNumber : Type := {
  tmpNumber : Z;                  (* Number hexutil.Big *)
  tmpL1BatchNumber : option Z;
  tmpL1BatchTimestamp : option Z
}.

Record TmpBlockByHash : Type := {
  tmpHL1BatchNumber : option Z;
  tmpHL1BatchTimestamp : option Z
}.

(** [Block], with the fields [GetBlockByNumber] and [GetBlockByHash] fill
    in ([Block_] is the embedded [Block]). *)
Record Block : Type := {
  Block_ : EthBlock;
  L1BatchNumber : option Z;
  L1BatchTimestamp : option Z
}.

(* ===================================================================== *)
(** * Events                                                             *)
(* ===================================================================== *)

(** An argument of an RPC call. *)
Inductive Arg : Type :=
| AHash (h : Hash)
| ABlockNumber (b : BlockNumber)
| ABool (b : bool)
| AInt (n : Z)
| AUint32 (n : Z).

(** The type of the variable an RPC call decodes its response into. *)
Inductive RespTy : Type :=
| TTransactionReceipt
| TTransactionResponse
| TTmpBlockByNumber
| TTmpBlockByHash
| TL2ToL1MessageProof
| TBlockDetails
| THeader.

Definition Resp (ty : RespTy) : Type :=
  match ty with
  | TTransactionReceipt => TransactionReceipt
  | TTransactionResponse => TransactionResponse
  | TTmpBlockByNumber => TmpBlockByNumber
  | TTmpBlockByHash => TmpBlockByHash
  | TL2ToL1MessageProof => L2ToL1MessageProof
  | TBlockDetails => BlockDetails
  | THeader => Header
  end.

(** What [err := p.c.Call(&resp, method, args...)] leaves behind: the
    pointer [resp] (nil when the node answered [null]) and [err]. *)
Definition CallResult (ty : RespTy) : Type := (option (Resp ty) * option error)%type.

(** Which case of
    [select { case <-ctx.Done(): ...  case <-queryTicker.C: }] ran. *)
Inductive SelectCase : Type :=
| CtxDone (why : ctxReason)
| TickerFired.

(** What the provider does to the world around it: [p.c.Call] and
    [p.c.CallContext] of the RPC client, [BlockByNumber] and [BlockByHash] of
    the embedded Ethereum client (each returns a block or an error), the
    [select] of the two loops, and the dereference of a nil pointer, which
    has no answer.  The ticker of a loop, one tick a second from
    [time.NewTicker] to the deferred [Stop], is seen through [Select] only. *)
Variant providerE : Type -> Type :=
| Call (ty : RespTy) (method : string) (args : list Arg) : providerE (CallResult ty)
| CallContext (ty : RespTy) (method : string) (args : list Arg) : providerE (CallResult ty)
| BlockByNumber (number : Z) : providerE (EthBlock + error)
| BlockByHash (hash : Hash) : providerE (EthBlock + error)
| Select : providerE SelectCase
| NilDereference : providerE Empty_set.

(** A nil pointer dereference: the goroutine panics, nothing is returned. *)
Definition panic {R : Type} : itree providerE R :=
  Vis NilDereference (fun v : Empty_set => match v with end).

(** What a method returns: a pointer and an error. *)
Definition Returns (T : Type) : Type := (option T * option error)%type.

(* ===================================================================== *)
(** * The query wrappers                                                 *)
(* ===================================================================== *)

Definition GetBlockByNumber (blockNumber : BlockNumber) : itree providerE (Returns Block) :=
  '(resp, err) <- ITree.trigger
      (Call TTmpBlockByNumber "eth_getBlockByNumber" [ABlockNumber blockNumber; ABool false]) ;;
  match err with
  | Some err => Ret (None, Some (fmt_Errorf "failed to query eth_getBlockByNumber" err))
  | None =>
    match resp with
    | None => Ret (None, Some NotFound)
    | Some resp =>
      r <- ITree.trigger (BlockByNumber (tmpNumber resp)) ;;
      match r with
      | inr err => Ret (None, Some err)
      | inl ethBlock =>
        Ret (Some {| Block_ := ethBlock;
                     L1BatchNumber := tmpL1BatchNumber resp;
                     L1BatchTimestamp := tmpL1BatchTimestamp resp |}, None)
      end
    end
  end.

Definition GetBlockByHash (blockHash : Hash) : itree providerE (Returns Block) :=
  '(resp, err) <- ITree.trigger
      (Call TTmpBlockByHash "eth_getBlockByHash" [AHash blockHash; ABool false]) ;;
  match err with
  | Some err => Ret (None, Some (fmt_Errorf "failed to query eth_getBlockByHash" err))
  | None =>
    match resp with
    | None => Ret (None, Some NotFound)
    | Some resp =>
      r <- ITree.trigger (BlockByHash blockHash) ;;
      match r with
      | inr err => Ret (None, Some err)
      | inl ethBlock =>
        Ret (Some {| Block_ := ethBlock;
                     L1BatchNumber := tmpHL1BatchNumber resp;
                     L1BatchTimestamp := tmpHL1BatchTimestamp resp |}, None)
      end
    end
  end.

Definition GetTransactionReceipt (txHash : Hash) : itree providerE (Returns TransactionReceipt) :=
  '(resp, err) <- ITree.trigger
      (Call TTransactionReceipt "eth_getTransactionReceipt" [AHash txHash]) ;;
  match err with
  | Some err => Ret (None, Some (fmt_Errorf "failed to query eth_getTransactionReceipt" err))
  | None =>
    match resp with
    | None => Ret (None, Some NotFound)
    | Some _ => Ret (resp, None)
    end
  end.

Definition GetTransaction (txHash : Hash) : itree providerE (Returns TransactionResponse) :=
  '(resp, err) <- ITree.trigger
      (Call TTransactionResponse "eth_getTransactionByHash" [AHash txHash]) ;;
  match err with
  | Some err => Ret (None, Some (fmt_Errorf "failed to query eth_getTransactionByHash" err))
  | None =>
    match resp with
    | None => Ret (None, Some NotFound)
    | Some _ => Ret (resp, None)
    end
  end.

Definition ZksGetL2ToL1LogProof (txHash : Hash) (logIndex : Z)
  : itree providerE (Returns L2ToL1MessageProof) :=
  '(resp, err) <- ITree.trigger
      (Call TL2ToL1MessageProof "zks_getL2ToL1LogProof" [AHash txHash; AInt logIndex]) ;;
  match err with
  | Some err => Ret (None, Some (fmt_Errorf "failed to query zks_getL2ToL1LogProof" err))
  | None =>
    match resp with
    | None => Ret (None, Some NotFound)
    | Some _ => Ret (resp, None)
    end
  end.

Definition ZksGetBlockDetails (block : Z) : itree providerE (Returns BlockDetails) :=
  '(resp, err) <- ITree.trigger
      (Call TBlockDetails "zks_getBlockDetails" [AUint32 block]) ;;
  match err with
  | Some err => Ret (None, Some (fmt_Errorf "failed to query zks_getBlockDetails" err))
  | None =>
    match resp with
    | None => Ret (None, Some NotFound)
    | Some _ => Ret (resp, None)
    end
  end.

(* ===================================================================== *)
(** * The confirmation waiters                                           *)
(* ===================================================================== *)

(** The wait at the end of a round of either loop:
    [select { case <-ctx.Done(): return nil, ctx.Err()
              case <-queryTicker.C: }].
    [inl tt] goes round the loop again, [inr] returns. *)
Definition next_round {T : Type} : itree providerE (unit + Returns T) :=
  c <- ITree.trigger Select ;;
  match c with
  | CtxDone why => Ret (inr (None, Some (ctx_Err why)))
  | TickerFired => Ret (inl tt)
  end.

(** One round of the loop of [WaitMined]. *)
Definition WaitMined_round (txHash : Hash) (_ : unit)
  : itree providerE (unit + Returns TransactionReceipt) :=
  '(receipt, err) <- GetTransactionReceipt txHash ;;
  (* err == nil && receipt.BlockNumber != nil *)
  mined <- match err with
           | Some _ => Ret false
           | None =>
             match receipt with
             | None => panic
             | Some r =>
               match BlockNumber_ r with
               | Some _ => Ret true
               | None => Ret false
               end
             end
           end ;;
  if mined : bool then Ret (inr (receipt, None)) else next_round.

Definition WaitMined (txHash : Hash) : itree providerE (Returns TransactionReceipt) :=
  ITree.iter (WaitMined_round txHash) tt.

(** One round of the loop of [WaitFinalized]; [blockNumber] is
    [receipt.BlockNumber], known to be non-nil when the loop starts. *)
Definition WaitFinalized_round (receipt : TransactionReceipt) (blockNumber : Z) (_ : unit)
  : itree providerE (unit + Returns TransactionReceipt) :=
  '(blockHead, err) <- ITree.trigger
      (CallContext THeader "eth_getBlockByNumber"
                   [ABlockNumber BlockNumberFinalized; ABool false]) ;;
  let err := match err, blockHead with
             | None, None => Some NotFound
             | _, _ => err
             end in
  match err with
  | Some err => Ret (inr (None, Some (fmt_Errorf "failed to get finalized block" err)))
  | None =>
    match blockHead with
    | None => panic
    | Some blockHead =>
      if (Cmp (Number blockHead) blockNumber >=? 0)%Z
      then Ret (inr (Some receipt, None))
      else next_round
    end
  end.

(** The loop of [WaitFinalized]. *)
Definition WaitFinalized_poll (receipt : TransactionReceipt) (blockNumber : Z)
  : itree providerE (Returns TransactionReceipt) :=
  ITree.iter (WaitFinalized_round receipt blockNumber) tt.

(** [WaitFinalized] after its call of [WaitMined] has returned
    [(receipt, err)]. *)
Definition WaitFinalized_after (mined : Returns TransactionReceipt)
  : itree providerE (Returns TransactionReceipt) :=
  let '(receipt, err) := mined in
  match err with
  | Some err => Ret (None, Some (fmt_Errorf "failed to wait for tx is mined" err))
  | None =>
    match receipt with
    | None => panic
    | Some receipt =>
      match BlockNumber_ receipt with
      | None => Ret (None, Some (errors_New "empty tx block number"))
      | Some blockNumber => WaitFinalized_poll receipt blockNumber
      end
    end
  end.

Definition WaitFinalized (txHash : Hash) : itree providerE (Returns TransactionReceipt) :=
  mined <- WaitMined txHash ;;
  WaitFinalized_after mined.

(* ===================================================================== *)
(** * Running a method against a node                                    *)
(* ===================================================================== *)

(** What the run of a method leaves in the trace, in the order performed. *)
Inductive Label : Type :=
| LCall (method : string) (args : list Arg)
| LBlockByNumber (number : Z)
| LBlockByHash (hash : Hash)
| LSelect.

Definition Trace := list Label.

Definition is_call (method : string) (l : Label) : bool :=
  match l with
  | LCall m _ => String.eqb m method
  | _ => false
  end.

Definition is_eth (l : Label) : bool :=
  match l with
  | LBlockByNumber _ | LBlockByHash _ => true
  | _ => false
  end.

Definition is_select (l : Label) : bool :=
  match l with
  | LSelect => true
  | _ => false
  end.

Definition count (p : Label -> bool) (tr : Trace) : nat := List.length (filter p tr).

(** The node and the caller's context, as tables of answers: the answer to
    the [i]-th call of an RPC method (counted from 0, per method), to the
    [i]-th call of the Ethereum client, and the case taken by the [i]-th
    [select]. *)
Record Node : Type := {
  rpc : forall ty : RespTy, string -> list Arg -> nat -> CallResult ty;
  blockByNumber : Z -> nat -> EthBlock + error;
  blockByHash : Hash -> nat -> EthBlock + error;
  selectCase : nat -> SelectCase
}.

Inductive Outcome (R : Type) : Type :=
| Returned (r : R) (tr : Trace)
| Panicked (tr : Trace)
| OutOfFuel (tr : Trace).
Arguments Returned {R} r tr.
Arguments Panicked {R} tr.
Arguments OutOfFuel {R} tr.

Definition trace_of {R : Type} (o : Outcome R) : Trace :=
  match o with
  | Returned _ tr | Panicked tr | OutOfFuel tr => tr
  end.

(** Every event and every turn of a loop costs one unit of fuel. *)
Fixpoint run {R : Type} (fuel : nat) (nd : Node) (tr : Trace) (t : itree providerE R)
  : Outcome R :=
  match fuel with
  | O => OutOfFuel tr
  | S fuel =>
    match observe t with
    | RetF r => Returned r tr
    | TauF t' => run fuel nd tr t'
    | VisF e k =>
      match e in providerE X return (X -> itree providerE R) -> Outcome R with
      | Call ty method args => fun k =>
          run fuel nd (tr ++ [LCall method args])
              (k (rpc nd ty method args (count (is_call method) tr)))
      | CallContext ty method args => fun k =>
          run fuel nd (tr ++ [LCall method args])
              (k (rpc nd ty method args (count (is_call method) tr)))
      | BlockByNumber number => fun k =>
          run fuel nd (tr ++ [LBlockByNumber number])
              (k (blockByNumber nd number (count is_eth tr)))
      | BlockByHash hash => fun k =>
          run fuel nd (tr ++ [LBlockByHash hash])
              (k (blockByHash nd hash (count is_eth tr)))
      | Select => fun k =>
          run fuel nd (tr ++ [LSelect]) (k (selectCase nd (count is_select tr)))
      | NilDereference => fun _ => Panicked tr
      end k
    end
  end.

(* ===================================================================== *)
(** * Reading a run                                                      *)
(* ===================================================================== *)

(** The calls of the two loops, as they appear in a trace. *)
Definition receiptCall (txHash : Hash) : Label :=
  LCall "eth_getTransactionReceipt" [AHash txHash].

Definition finalizedCall : Label :=
  LCall "eth_getBlockByNumber" [ABlockNumber BlockNumberFinalized; ABool false].

(** The answers still to come after the history [tr]: to the [i]-th
    receipt fetch, to the [i]-th fetch of the finalized header, and the
    case of the [i]-th [select], each counted from 0. *)
Definition fetchedReceipt (nd : Node) (txHash : Hash) (tr : Trace) (i : nat)
  : CallResult TTransactionReceipt :=
  rpc nd TTransactionReceipt "eth_getTransactionReceipt" [AHash txHash]
      (count (is_call "eth_getTransactionReceipt") tr + i).

Definition fetchedHeader (nd : Node) (tr : Trace) (i : nat) : CallResult THeader :=
  rpc nd THeader "eth_getBlockByNumber" [ABlockNumber BlockNumberFinalized; ABool false]
      (count (is_call "eth_getBlockByNumber") tr + i).

Definition selected (nd : Node) (tr : Trace) (i : nat) : SelectCase :=
  selectCase nd (count is_select tr + i).

(** A receipt fetch shows the transaction mined: the call succeeded, the
    response is not [null], and the receipt has a block number. *)
Definition is_mined (a : CallResult TTransactionReceipt) : bool :=
  match a with
  | (Some r, None) =>
    match BlockNumber_ r with
    | Some _ => true
    | None => false
    end
  | _ => false
  end.

(** [n] rounds of a polling loop that each end with a tick. *)
Fixpoint rounds (call : Label) (n : nat) : Trace :=
  match n with
  | O => []
  | S n => call :: LSelect :: rounds call n
  end.

(** An outcome other than running out of fuel. *)
Definition final {R : Type} (o : Outcome R) : Prop :=
  match o with
  | OutOfFuel _ => False
  | _ => True
  end.

(** The error of a fetch of the finalized header, after the test for a
    missing header. *)
Definition fetch_error (a : CallResult THeader) : option error :=
  match a with
  | (_, Some e) => Some e
  | (None, None) => Some NotFound
  | (Some _, None) => None
  end.

(** A fetch yields a finalized header whose number is below [blockNumber]. *)
Definition below (a : CallResult THeader) (blockNumber : Z) : bool :=
  match a with
  | (Some hd, None) => (Number hd <? blockNumber)%Z
  | _ => false
  end.


(** How many receipt fetches a call of [WaitMined], started after the
    history [tr], has made within [fuel] steps. *)
Definition attempts (nd : Node) (txHash : Hash) (tr : Trace) (fuel : nat) : nat :=
  count (is_call "eth_getTransactionReceipt") (trace_of (run fuel nd tr (WaitMined txHash)))
  - count (is_call "eth_getTransactionReceipt") tr.

(** What the next call of [method] is answered, after the history [tr]. *)
Definition response (nd : Node) (tr : Trace) (ty : RespTy) (method : string)
           (args : list Arg) : CallResult ty :=
  rpc nd ty method args (count (is_call method) tr).

(** A query wrapper [t] around the call of [method]: it returns, its result
    is non-nil exactly when its error is nil, and a [null] response with no
    error of the call makes it return no result and [NotFound], right after
    the call. *)
Definition not_found_on_null {T : Type} (nd : Node) (tr : Trace) (ty : RespTy)
           (method : string) (args : list Arg) (t : itree providerE (Returns T)) : Prop :=
  forall fuel, 3 <= fuel ->
    (exists res err tr',
        run fuel nd tr t = Returned (res, err) tr' /\ (res <> None <-> err = None))
    /\ (response nd tr ty method args = (None, None) ->
        run fuel nd tr t = Returned (None, Some NotFound) (tr ++ [LCall method args])).

(* ===================================================================== *)
(** * Scenarios                                                          *)
(* ===================================================================== *)

(** A node that answers from scripts: the receipt fetches and the fetches of
    the finalized header in turn, [null] once a script is used up; the
    [select]s in turn, and [rest] ever after. *)
Definition scripted (receipts : list (CallResult TTransactionReceipt))
           (headers : list (CallResult THeader))
           (selects : list SelectCase) (rest : SelectCase) : Node :=
  {| rpc := fun ty =>
       match ty return string -> list Arg -> nat -> CallResult ty with
       | TTransactionReceipt => fun _ _ i => nth i receipts (None, None)
       | THeader => fun _ _ i => nth i headers (None, None)
       | _ => fun _ _ _ => (None, None)
       end;
     blockByNumber := fun _ _ => inr NotFound;
     blockByHash := fun _ _ => inr NotFound;
     selectCase := fun i => nth i selects rest |}.

(** The receipt of transaction [0xAA], mined in block [b] if any. *)
Definition receipt_in (b : option Z) : TransactionReceipt :=
  {| TxHash := 0xAA%Z; BlockNumber_ := b; Status := 1%Z |}.

(** The receipt poll sequence [NotFound, NotFound, {blockNumber: 100}]. *)
Definition mined_at_third_poll : Node :=
  scripted [(None, None); (None, None); (Some (receipt_in (Some 100%Z)), None)]
           [] [] TickerFired.

(** A transaction that is never mined, and a context that is never done. *)
Definition never_mined : Node := scripted [] [] [] TickerFired.


(** A context cancelled before the call, and a transaction already mined. *)
Definition cancelled_but_mined : Node :=
  scripted [(Some (receipt_in (Some 100%Z)), None); (Some (receipt_in (Some 100%Z)), None)]
           [] [] (CtxDone Canceled).

Definition header (number : Z) : CallResult THeader := (Some {| Number := number |}, None).

(** Receipt in block 100; finalized-header poll sequence
    [{number: 98}, {number: 99}, {number: 101}]. *)
Definition finalized_at_third_poll : Node :=
  scripted [(Some (receipt_in (Some 100%Z)), None)]
           [header 98; header 99; header 101] [] TickerFired.

(** Receipt in block 100; the fetch of the finalized header fails once and
    would succeed the next time. *)
Definition finalized_fetch_fails_once : Node :=
  scripted [(Some (receipt_in (Some 100%Z)), None)]
           [(None, Some (rpc_Error (-32000) "timeout")); header 101] [] TickerFired.

(** The receipt fetch fails once, then shows the transaction mined. *)
Definition receipt_fetch_fails_once : Node :=
  scripted [(None, Some (rpc_Error (-32000) "timeout")); (Some (receipt_in (Some 100%Z)), None)]
           [header 101] [] TickerFired.

(** A transaction not yet mined when the context is cancelled. *)
Definition cancelled_first_wait : Node := scripted [] [] [] (CtxDone Canceled).

(** Receipt in block 100; the context is cancelled while the first wait
    for the finalized block goes on. *)
Definition cancelled_while_finalizing : Node :=
  scripted [(Some (receipt_in (Some 100%Z)), None)]
           [header 98; header 99] [] (CtxDone Canceled).

(** Receipt in block 100; the finalized block stays at 98 and the context
    is never done. *)
Definition never_finalized : Node :=
  {| rpc := fun ty =>
       match ty return string -> list Arg -> nat -> CallResult ty with
       | TTransactionReceipt => fun _ _ _ => (Some (receipt_in (Some 100%Z)), None)
       | THeader => fun _ _ _ => header 98
       | _ => fun _ _ _ => (None, None)
       end;
     blockByNumber := fun _ _ => inr NotFound;
     blockByHash := fun _ _ => inr NotFound;
     selectCase := fun _ => TickerFired |}.

(* ===================================================================== *)
(** * The other queries                                                  *)
(* ===================================================================== *)

(** [common.Address]: 20 bytes, read as a number. *)
Definition Address := Z.

(** What the other queries take from outside [Provider.go] and only hand
    on, convert with, or compare: the types of the rest of the package, the
    zero values of two of them, the tag [BlockNumberLatest], and the
    conversions of go-ethereum and of the package ([hexutil.DecodeBig] and
    [toFilterArg] return a value and an error, [SetString] of [big.Float] a
    value and a flag).  Every property below holds whatever they are. *)
Record Imports : Type := {
  Transaction : Type;
  Token : Type;
  BridgeContracts : Type;
  Fee : Type;
  Log : Type;
  FilterQuery : Type;
  FilterArg : Type;
  BigFloat : Type;
  BridgeContracts_zero : BridgeContracts;          (* BridgeContracts{} *)
  Fee_zero : Fee;                                  (* var res Fee *)
  BlockNumberLatest : BlockNumber;
  DecodeBig : string -> option Z * option error;   (* hexutil.DecodeBig *)
  Encode : list Byte.byte -> string;               (* hexutil.Encode *)
  HexToHash : string -> Hash;                      (* common.HexToHash *)
  HexToAddress : string -> Address;                (* common.HexToAddress *)
  SetString : string -> option BigFloat * bool;    (* big.NewFloat(0).SetString *)
  toFilterArg : FilterQuery -> FilterArg * option error
}.

(** An argument of one of these calls. *)
Inductive QArg (I : Imports) : Type :=
| QAddress (a : Address)
| QBlockNumber (b : BlockNumber)
| QText (s : string)
| QTransaction (tx : option (Transaction I))
| QUint32 (n : Z)
| QUint8 (n : Z)
| QHash (h : Hash)
| QFilterArg (a : FilterArg I).
Arguments QAddress {I} a.
Arguments QBlockNumber {I} b.
Arguments QText {I} s.
Arguments QTransaction {I} tx.
Arguments QUint32 {I} n.
Arguments QUint8 {I} n.
Arguments QHash {I} h.
Arguments QFilterArg {I} a.

(** The type of the variable such a call decodes into: a string, a bool, a
    slice of token pointers, a proof pointer, the entries of a
    [map[common.Address]string] in the order a [range] visits them, the two
    structs, a slice of logs.  A slice is an [option]: [None] is the nil
    slice. *)
Inductive QTy : Type :=
| QString | QBool | QTokens | QProof | QBalances | QBridgeContracts | QFee | QLogs.

Definition QVal (I : Imports) (ty : QTy) : Type :=
  match ty with
  | QString => string
  | QBool => bool
  | QTokens => option (list (option (Token I)))
  | QProof => option L2ToL1MessageProof
  | QBalances => list (Address * string)
  | QBridgeContracts => BridgeContracts I
  | QFee => Fee I
  | QLogs => option (list (Log I))
  end.

(** [err := p.c.Call(&res, method, args...)], where [res] holds [into]
    before the call: the answer is what [res] holds after it, and [err]. *)
Variant queryE (I : Imports) : Type -> Type :=
| Query (ty : QTy) (into : QVal I ty) (method : string) (args : list (QArg I))
  : queryE I (QVal I ty * option error).
Arguments Query {I} ty into method args.

Definition GetBalance (I : Imports) (address : Address) (blockNumber : BlockNumber)
  : itree (queryE I) (Returns Z) :=
  '(res, err) <- ITree.trigger
      (Query QString ""%string "eth_getBalance" [QAddress address; QBlockNumber blockNumber]) ;;
  match err with
  | Some err => Ret (None, Some (fmt_Errorf "failed to query eth_getBalance" err))
  | None =>
    let '(resp, err) := DecodeBig I res in
    match err with
    | Some err => Ret (None, Some (fmt_Errorf "failed to decode response as big.Int" err))
    | None => Ret (resp, None)
    end
  end.

Definition GetTransactionCount (I : Imports) (address : Address) (blockNumber : BlockNumber)
  : itree (queryE I) (Returns Z) :=
  '(res, err) <- ITree.trigger
      (Query QString ""%string "eth_getTransactionCount"
             [QAddress address; QBlockNumber blockNumber]) ;;
  match err with
  | Some err => Ret (None, Some (fmt_Errorf "failed to query eth_getTransactionCount" err))
  | None =>
    let '(resp, err) := DecodeBig I res in
    match err with
    | Some err => Ret (None, Some (fmt_Errorf "failed to decode response as big.Int" err))
    | None => Ret (resp, None)
    end
  end.

Definition EstimateGas (I : Imports) (tx : option (Transaction I))
  : itree (queryE I) (Returns Z) :=
  '(res, err) <- ITree.trigger
      (Query QString ""%string "eth_estimateGas"
             [QTransaction tx; QBlockNumber (BlockNumberLatest I)]) ;;
  match err with
  | Some err => Ret (None, Some (fmt_Errorf "failed to query eth_estimateGas" err))
  | None =>
    let '(resp, err) := DecodeBig I res in
    match err with
    | Some err => Ret (None, Some (fmt_Errorf "failed to decode response as big.Int" err))
    | None => Ret (resp, None)
    end
  end.

Definition GetGasPrice (I : Imports) : itree (queryE I) (Returns Z) :=
  '(res, err) <- ITree.trigger (Query QString ""%string "eth_gasPrice" []) ;;
  match err with
  | Some err => Ret (None, Some (fmt_Errorf "failed to query eth_gasPrice" err))
  | None =>
    let '(resp, err) := DecodeBig I res in
    match err with
    | Some err => Ret (None, Some (fmt_Errorf "failed to decode response as big.Int" err))
    | None => Ret (resp, None)
    end
  end.

Definition SendRawTransaction (I : Imports) (tx : list Byte.byte)
  : itree (queryE I) (Hash * option error) :=
  '(res, err) <- ITree.trigger
      (Query QString ""%string "eth_sendRawTransaction" [QText (Encode I tx)]) ;;
  match err with
  | Some err => Ret (0%Z, Some (fmt_Errorf "failed to call eth_sendRawTransaction" err))
  | None => Ret (HexToHash I res, None)
  end.

Definition ZksGetMainContract (I : Imports) : itree (queryE I) (Address * option error) :=
  '(res, err) <- ITree.trigger (Query QString ""%string "zks_getMainContract" []) ;;
  match err with
  | Some err => Ret (0%Z, Some (fmt_Errorf "failed to query zks_getMainContract" err))
  | None => Ret (HexToAddress I res, None)
  end.

Definition ZksL1ChainId (I : Imports) : itree (queryE I) (Returns Z) :=
  '(res, err) <- ITree.trigger (Query QString ""%string "zks_L1ChainId" []) ;;
  match err with
  | Some err => Ret (None, Some (fmt_Errorf "failed to query zks_L1ChainId" err))
  | None =>
    let '(resp, err) := DecodeBig I res in
    match err with
    | Some err => Ret (None, Some (fmt_Errorf "failed to decode response as big.Int" err))
    | None => Ret (resp, None)
    end
  end.

Definition ZksL1BatchNumber (I : Imports) : itree (queryE I) (Returns Z) :=
  '(res, err) <- ITree.trigger (Query QString ""%string "zks_L1BatchNumber" []) ;;
  match err with
  | Some err => Ret (None, Some (fmt_Errorf "failed to query zks_L1BatchNumber" err))
  | None =>
    let '(resp, err) := DecodeBig I res in
    match err with
    | Some err => Ret (None, Some (fmt_Errorf "failed to decode response as big.Int" err))
    | None => Ret (resp, None)
    end
  end.

Definition ZksGetConfirmedTokens (I : Imports) (from : Z) (limit : Z)
  : itree (queryE I) (option (list (option (Token I))) * option error) :=
  '(res, err) <- ITree.trigger
      (Query QTokens (Some []) "zks_getConfirmedTokens" [QUint32 from; QUint8 limit]) ;;
  match err with
  | Some err => Ret (None, Some (fmt_Errorf "failed to query zks_getConfirmedTokens" err))
  | None => Ret (res, None)
  end.

Definition ZksIsTokenLiquid (I : Imports) (address : Address)
  : itree (queryE I) (bool * option error) :=
  '(res, err) <- ITree.trigger (Query QBool false "zks_isTokenLiquid" [QAddress address]) ;;
  match err with
  | Some err => Ret (false, Some (fmt_Errorf "failed to query zks_isTokenLiquid" err))
  | None => Ret (res, None)
  end.

Definition ZksGetTokenPrice (I : Imports) (address : Address)
  : itree (queryE I) (Returns (BigFloat I)) :=
  '(res, err) <- ITree.trigger
      (Query QString ""%string "zks_getTokenPrice" [QAddress address]) ;;
  match err with
  | Some err => Ret (None, Some (fmt_Errorf "failed to query zks_getTokenPrice" err))
  | None =>
    let '(resp, ok) := SetString I res in
    if ok : bool
    then Ret (resp, None)
    else Ret (None, Some (errors_New "failed to decode response as big.Float"))
  end.

Definition ZksGetL2ToL1MsgProof (I : Imports) (block : Z) (sender : Address) (msg : Hash)
  : itree (queryE I) (Returns L2ToL1MessageProof) :=
  '(resp, err) <- ITree.trigger
      (Query QProof None "zks_getL2ToL1MsgProof" [QUint32 block; QAddress sender; QHash msg]) ;;
  match err with
  | Some err => Ret (None, Some (fmt_Errorf "failed to query zks_getL2ToL1MsgProof" err))
  | None =>
    match resp with
    | None => Ret (None, Some NotFound)
    | Some _ => Ret (resp, None)
    end
  end.

(** A [map[common.Address]*big.Int], as the list of its entries. *)
Definition Balances := list (Address * option Z).

(** [resp[t] = v]. *)
Fixpoint set_balance (t : Address) (v : option Z) (resp : Balances) : Balances :=
  match resp with
  | [] => [(t, v)]
  | (t', v') :: resp' =>
    if (t' =? t)%Z then (t, v) :: resp' else (t', v') :: set_balance t v resp'
  end.

(** [resp[t]], with whether the key is there. *)
Fixpoint get_balance (t : Address) (resp : Balances) : option (option Z) :=
  match resp with
  | [] => None
  | (t', v) :: resp' => if (t' =? t)%Z then Some v else get_balance t resp'
  end.

(** The loop [for t, b := range res { ... }] of [ZksGetAllAccountBalances],
    over the entries of [res] still to visit. *)
Fixpoint decode_balances (I : Imports) (res : list (Address * string)) (resp : Balances)
  : Returns Balances :=
  match res with
  | [] => (Some resp, None)
  | (t, b) :: res' =>
    let '(v, err) := DecodeBig I b in
    let resp := set_balance t v resp in
    match err with
    | Some err =>
      (None, Some (fmt_Errorf "failed to decode one of balances as big.Int" err))
    | None => decode_balances I res' resp
    end
  end.

Definition ZksGetAllAccountBalances (I : Imports) (address : Address)
  : itree (queryE I) (Returns Balances) :=
  '(res, err) <- ITree.trigger
      (Query QBalances [] "zks_getAllAccountBalances" [QAddress address]) ;;
  match err with
  | Some err => Ret (None, Some (fmt_Errorf "failed to query zks_getAllAccountBalances" err))
  | None => Ret (decode_balances I res [])
  end.

Definition ZksGetBridgeContracts (I : Imports)
  : itree (queryE I) (Returns (BridgeContracts I)) :=
  '(res, err) <- ITree.trigger
      (Query QBridgeContracts (BridgeContracts_zero I) "zks_getBridgeContracts" []) ;;
  match err with
  | Some err => Ret (None, Some (fmt_Errorf "failed to query zks_getBridgeContracts" err))
  | None => Ret (Some res, None)
  end.

Definition ZksEstimateFee (I : Imports) (tx : option (Transaction I))
  : itree (queryE I) (Returns (Fee I)) :=
  '(res, err) <- ITree.trigger
      (Query QFee (Fee_zero I) "zks_estimateFee" [QTransaction tx]) ;;
  match err with
  | Some err => Ret (None, Some (fmt_Errorf "failed to query zks_estimateFee" err))
  | None => Ret (Some res, None)
  end.

Definition ZksGetTestnetPaymaster (I : Imports) : itree (queryE I) (Address * option error) :=
  '(res, err) <- ITree.trigger (Query QString ""%string "zks_getTestnetPaymaster" []) ;;
  match err with
  | Some err => Ret (0%Z, Some (fmt_Errorf "failed to query zks_estimateFee" err))
  | None => Ret (HexToAddress I res, None)
  end.

Definition GetLogs (I : Imports) (q : FilterQuery I)
  : itree (queryE I) (option (list (Log I)) * option error) :=
  let '(arg, err) := toFilterArg I q in
  match err with
  | Some err => Ret (None, Some err)
  | None =>
    '(result, err) <- ITree.trigger (Query QLogs None "eth_getLogs" [QFilterArg arg]) ;;
    Ret (result, err)
  end.

(** The calls a query has made, in order. *)
Inductive Called (I : Imports) : Type :=
| called (method : string) (args : list (QArg I)).
Arguments called {I} method args.

Definition is_called {I : Imports} (method : string) (c : Called I) : bool :=
  match c with
  | called m _ => String.eqb m method
  end.

(** The node as a table of answers: what the [i]-th call of a method leaves
    in the variable it decodes into, and its error. *)
Definition Replies (I : Imports) : Type :=
  forall ty : QTy, QVal I ty -> string -> list (QArg I) -> nat -> QVal I ty * option error.

Inductive QOutcome (I : Imports) (R : Type) : Type :=
| QReturned (r : R) (calls : list (Called I))
| QOutOfFuel (calls : list (Called I)).
Arguments QReturned {I R} r calls.
Arguments QOutOfFuel {I R} calls.

Fixpoint runQ {I : Imports} {R : Type} (fuel : nat) (rp : Replies I)
         (calls : list (Called I)) (t : itree (queryE I) R) : QOutcome I R :=
  match fuel with
  | O => QOutOfFuel calls
  | S fuel =>
    match observe t with
    | RetF r => QReturned r calls
    | TauF t' => runQ fuel rp calls t'
    | VisF e k =>
      match e in queryE _ X return (X -> itree (queryE I) R) -> QOutcome I R with
      | Query ty into method args => fun k =>
          runQ fuel rp (calls ++ [called method args])
               (k (rp ty into method args
                      (List.length (filter (is_called method) calls))))
      end k
    end
  end.

(** What the next call of [method] is answered, after the calls [calls]. *)
Definition reply {I : Imports} (rp : Replies I) (calls : list (Called I))
           (ty : QTy) (into : QVal I ty) (method : string) (args : list (QArg I))
  : QVal I ty * option error :=
  rp ty into method args (List.length (filter (is_called method) calls)).

(** A query for a quantity, around the call of [method]: it makes that one
    call; an error [e] of the call comes back wrapped as "failed to query"
    and the method, an error [e] of [hexutil.DecodeBig] wrapped as "failed
    to decode response as big.Int", each with no number; otherwise the
    decoded number comes back, with no error. *)
Definition quantity_query {I : Imports} (rp : Replies I) (calls : list (Called I))
           (method : string) (args : list (QArg I)) (t : itree (queryE I) (Returns Z)) : Prop :=
  forall fuel, 2 <= fuel ->
    exists res err,
      runQ fuel rp calls t = QReturned (res, err) (calls ++ [called method args])
      /\ (forall text e,
             reply rp calls QString ""%string method args = (text, Some e) ->
             res = None
             /\ err = Some (fmt_Errorf (String.append "failed to query " method) e))
      /\ (forall text v e,
             reply rp calls QString ""%string method args = (text, None) ->
             DecodeBig I text = (v, Some e) ->
             res = None /\ err = Some (fmt_Errorf "failed to decode response as big.Int" e))
      /\ (forall text v,
             reply rp calls QString ""%string method args = (text, None) ->
             DecodeBig I text = (v, None) ->
             res = v /\ err = None).

(** The value of key [t] among the entries of a [map[common.Address]string]. *)
Fixpoint find_entry (t : Address) (res : list (Address * string)) : option string :=
  match res with
  | [] => None
  | (t', b) :: res' => if (t' =? t)%Z then Some b else find_entry t res'
  end.

(** Imports for the scenarios: nothing but texts behind the types, and
    [hexutil.DecodeBig] that knows two texts. *)
Definition toy : Imports :=
  {| Transaction := string; Token := string; BridgeContracts := string; Fee := string;
     Log := string; FilterQuery := string; FilterArg := string; BigFloat := string;
     BridgeContracts_zero := ""%string;
     Fee_zero := ""%string;
     BlockNumberLatest := "latest"%string;
     DecodeBig := fun s =>
       if String.eqb s "0x0" then (Some 0%Z, None)
       else if String.eqb s "0x10" then (Some 16%Z, None)
       else (None, Some (errors_New "invalid hex string"));
     Encode := fun _ => "0x"%string;
     HexToHash := fun _ => 0%Z;
     HexToAddress := fun _ => 0%Z;
     SetString := fun s => if String.eqb s "1.5" then (Some s, true) else (None, false);
     toFilterArg := fun q =>
       if String.eqb q "" then (""%string, Some (errors_New "bad filter")) else (q, None) |}.

(** A node that answers every call with [null] or the empty value, except
    that it knows the balances of two tokens, one of them garbled when
    [garbled] is set, and lists them in the order given. *)
Definition toy_replies (garbled : bool) (swapped : bool) : Replies toy :=
  fun ty =>
    match ty return QVal toy ty -> string -> list (QArg toy) -> nat
                    -> QVal toy ty * option error with
    | QBalances => fun _ _ _ _ =>
        let first := (1%Z, "0x10"%string) in
        let second := (2%Z, if garbled then "16"%string else "0x0"%string) in
        (if swapped then [second; first] else [first; second], None)
    | _ => fun into _ _ _ => (into, None)
    end.

(** A node on which every call fails. *)
Definition failing_replies : Replies toy :=
  fun ty into _ _ _ => (into, Some (rpc_Error (-32000) "timeout")).

(** A node that knows block 7, of batch 3, under every tag and hash, and
    whose Ethereum client knows every block. *)
Definition block_seven : Node :=
  {| rpc := fun ty =>
       match ty return string -> list Arg -> nat -> CallResult ty with
       | TTmpBlockByNumber => fun _ _ _ =>
           (Some {| tmpNumber := 7%Z; tmpL1BatchNumber := Some 3%Z;
                    tmpL1BatchTimestamp := Some 1000%Z |}, None)
       | TTmpBlockByHash => fun _ _ _ =>
           (Some {| tmpHL1BatchNumber := Some 3%Z; tmpHL1BatchTimestamp := Some 1000%Z |},
            None)
       | _ => fun _ _ _ => (None, None)
       end;
     blockByNumber := fun n _ => inl {| ethNumber := n; ethHash := 0xB7%Z |};
     blockByHash := fun h _ => inl {| ethNumber := 7%Z; ethHash := h |};
     selectCase := fun _ => TickerFired |}.

(* ===================================================================== *)
(** * Facts about [run]                                                  *)
(* ===================================================================== *)

Section RunFacts.

Variable nd : Node.

Lemma count_app (p : Label -> bool) (tr1 tr2 : Trace) :
  count p (tr1 ++ tr2) = count p tr1 + count p tr2.
Proof. unfold count. rewrite filter_app, length_app. reflexivity. Qed.

(** More fuel does not change a final outcome. *)
Lemma run_more {R : Type} (n : nat) :
  forall (tr : Trace) (t : itree providerE R) (o : Outcome R),
    run n nd tr t = o -> final o -> forall m, n <= m -> run m nd tr t = o.
Proof.
  induction n as [|n IH]; intros tr t o Hrun Hfin m Hle.
  - simpl in Hrun. subst o. contradiction.
  - destruct m as [|m]; [lia|].
    assert (Hnm : n <= m) by lia.
    simpl in *. destruct (observe t) as [r|t'|X e k]; auto.
    destruct e; eauto.
Qed.

(** A final outcome is the same whatever fuel produced it. *)
Lemma run_deterministic {R : Type} (n m : nat) (tr : Trace) (t : itree providerE R)
      (o1 o2 : Outcome R) :
  run n nd tr t = o1 -> final o1 -> run m nd tr t = o2 -> final o2 -> o1 = o2.
Proof.
  intros H1 F1 H2 F2.
  rewrite <- (run_more n tr t o1 H1 F1 (n + m)) by lia.
  rewrite <- (run_more m tr t o2 H2 F2 (n + m)) by lia.
  reflexivity.
Qed.

(** [run] with fuel left looks at the head of the tree. *)
Lemma run_S {R : Type} (n : nat) (tr : Trace) (t : itree providerE R) :
  run (S n) nd tr t =
  match observe t with
  | RetF r => Returned r tr
  | TauF t' => run n nd tr t'
  | VisF e k =>
    match e in providerE X return (X -> itree providerE R) -> Outcome R with
    | Call ty method args | CallContext ty method args => fun k =>
        run n nd (tr ++ [LCall method args])
            (k (rpc nd ty method args (count (is_call method) tr)))
    | BlockByNumber number => fun k =>
        run n nd (tr ++ [LBlockByNumber number])
            (k (blockByNumber nd number (count is_eth tr)))
    | BlockByHash hash => fun k =>
        run n nd (tr ++ [LBlockByHash hash])
            (k (blockByHash nd hash (count is_eth tr)))
    | Select => fun k =>
        run n nd (tr ++ [LSelect]) (k (selectCase nd (count is_select tr)))
    | NilDereference => fun _ => Panicked tr
    end k
  end.
Proof. reflexivity. Qed.

(** One step of a sequence [x <- t ;; k x]. *)
Lemma run_bind_step {T R : Type} (n : nat) (tr : Trace)
      (t : itree providerE T) (k : T -> itree providerE R) :
  run (S n) nd tr (ITree.bind t k) =
  match observe t with
  | RetF r => run (S n) nd tr (k r)
  | TauF t' => run n nd tr (ITree.bind t' k)
  | VisF e h => run (S n) nd tr (Vis e (fun x => ITree.bind (h x) k))
  end.
Proof. simpl. destruct (observe t); reflexivity. Qed.

(** If [t] returns [r], then [x <- t ;; k x] goes on as [k r]. *)
Lemma run_bind {T R : Type} (n : nat) :
  forall (tr tr1 : Trace) (t : itree providerE T) (k : T -> itree providerE R) (r : T),
    run n nd tr t = Returned r tr1 ->
    forall (m : nat) (o : Outcome R),
      run m nd tr1 (k r) = o -> final o -> run (n + m) nd tr (ITree.bind t k) = o.
Proof.
  induction n as [|n IH]; intros tr tr1 t k r Hrun m o Hk Hfin.
  - discriminate.
  - change (S n + m) with (S (n + m)). rewrite run_bind_step.
    simpl in Hrun. destruct (observe t) as [r0|t'|X e h].
    + injection Hrun as -> ->. apply (run_more m); auto. lia.
    + eapply IH; eauto.
    + simpl. destruct e; try (eapply IH; eauto). discriminate.
Qed.

(** A sequence that returns: its first part returned, and the rest
    returned from there. *)
Lemma run_bind_inv {T R : Type} (n : nat) :
  forall (tr tr' : Trace) (t : itree providerE T) (k : T -> itree providerE R) (x : R),
    run n nd tr (ITree.bind t k) = Returned x tr' ->
    exists (r : T) (tr1 : Trace),
      run n nd tr t = Returned r tr1 /\ run n nd tr1 (k r) = Returned x tr'.
Proof.
  induction n as [|n IH]; intros tr tr' t k x Hrun.
  - discriminate.
  - rewrite run_bind_step in Hrun. rewrite (run_S n tr t).
    destruct (observe t) as [r0|t'|X e h].
    + exists r0, tr. split; [reflexivity | exact Hrun].
    + apply IH in Hrun. destruct Hrun as (r & tr1 & H1 & H2).
      exists r, tr1. split; [exact H1|]. apply (run_more n); simpl; auto.
    + rewrite run_S in Hrun. simpl in Hrun.
      destruct e; try discriminate; apply IH in Hrun;
        destruct Hrun as (r & tr1 & H1 & H2);
        exists r, tr1; (split; [exact H1|]); apply (run_more n); simpl; auto.
Qed.

(** The trace only grows. *)
Lemma run_extends {R : Type} (n : nat) :
  forall (tr : Trace) (t : itree providerE R),
    exists rest, trace_of (run n nd tr t) = tr ++ rest.
Proof.
  induction n as [|n IH]; intros tr t.
  - exists []. simpl. now rewrite app_nil_r.
  - simpl. destruct (observe t) as [r|t'|X e k].
    + exists []. simpl. now rewrite app_nil_r.
    + apply IH.
    + destruct e;
        try (match goal with
             | |- context [run n nd (tr ++ [?l]) ?u] =>
               destruct (IH (tr ++ [l]) u) as [rest ->];
               exists (l :: rest); rewrite <- app_assoc; reflexivity
             end).
      exists []. simpl. now rewrite app_nil_r.
Qed.

End RunFacts.

(** A sequence whose first part has not returned yet has not returned. *)
Lemma run_bind_out_of_fuel {T R : Type} (nd : Node) (n : nat) :
  forall (tr tr1 : Trace) (t : itree providerE T) (k : T -> itree providerE R),
    run n nd tr t = OutOfFuel tr1 -> run n nd tr (ITree.bind t k) = OutOfFuel tr1.
Proof.
  induction n as [|n IH]; intros tr tr1 t k Hrun.
  - simpl in *. now injection Hrun as ->.
  - rewrite run_bind_step. rewrite run_S in Hrun.
    destruct (observe t) as [r|t'|X e h]; [discriminate|auto|].
    rewrite run_S. simpl. destruct e; auto. discriminate.
Qed.

(* ===================================================================== *)
(** * The loop of [WaitMined], round by round                            *)
(* ===================================================================== *)

Section WaitMinedRounds.

Variable nd : Node.
Variable txHash : Hash.

Lemma fetchedReceipt_0 (tr : Trace) :
  rpc nd TTransactionReceipt "eth_getTransactionReceipt" [AHash txHash]
      (count (is_call "eth_getTransactionReceipt") tr) = fetchedReceipt nd txHash tr 0.
Proof. unfold fetchedReceipt. now rewrite Nat.add_0_r. Qed.

Lemma selected_after_call (tr : Trace) (m : string) (args : list Arg) :
  selectCase nd (count is_select (tr ++ [LCall m args])) = selected nd tr 0.
Proof. unfold selected. rewrite count_app. reflexivity. Qed.

(** The first fetch shows the transaction mined: [WaitMined] returns. *)
Lemma WaitMined_mined (n : nat) (tr : Trace) (r : TransactionReceipt) (b : Z) :
  fetchedReceipt nd txHash tr 0 = (Some r, None) ->
  BlockNumber_ r = Some b ->
  run (S (S n)) nd tr (WaitMined txHash) = Returned (Some r, None) (tr ++ [receiptCall txHash]).
Proof.
  intros Hf Hb. rewrite run_S. simpl. rewrite fetchedReceipt_0, Hf. simpl.
  rewrite Hb. reflexivity.
Qed.

(** One round of the loop, whatever the node answers: the fetch, the test
    of the receipt, the wait. *)
Lemma WaitMined_unfold (n : nat) (tr : Trace) :
  run (S (S (S n))) nd tr (WaitMined txHash) =
  if is_mined (fetchedReceipt nd txHash tr 0)
  then Returned (fst (fetchedReceipt nd txHash tr 0), None) (tr ++ [receiptCall txHash])
  else match selected nd tr 0 with
       | CtxDone why =>
         Returned (None, Some (ctx_Err why)) (tr ++ [receiptCall txHash; LSelect])
       | TickerFired => run n nd (tr ++ [receiptCall txHash; LSelect]) (WaitMined txHash)
       end.
Proof.
  rewrite run_S. simpl. rewrite fetchedReceipt_0.
  destruct (fetchedReceipt nd txHash tr 0) as [[r|] [e|]]; simpl;
    try destruct (BlockNumber_ r); simpl; try reflexivity;
    rewrite selected_after_call; destruct (selected nd tr 0);
    rewrite <- app_assoc; reflexivity.
Qed.

(** With less fuel than a round takes, only a mined receipt ends the run. *)
Lemma WaitMined_short (n : nat) (tr : Trace) :
  n < 3 ->
  is_mined (fetchedReceipt nd txHash tr 0) = false ->
  exists tr', run n nd tr (WaitMined txHash) = OutOfFuel tr'.
Proof.
  intros Hn Hm.
  destruct n as [|[|[|n]]]; try lia; [eexists; reflexivity..|];
    rewrite run_S; simpl; rewrite fetchedReceipt_0;
    destruct (fetchedReceipt nd txHash tr 0) as [[r|] [e|]]; simpl in *;
    try destruct (BlockNumber_ r); try discriminate; simpl;
    eexists; reflexivity.
Qed.

Lemma fetchedReceipt_next (tr : Trace) (i : nat) :
  fetchedReceipt nd txHash (tr ++ [receiptCall txHash; LSelect]) i
  = fetchedReceipt nd txHash tr (S i).
Proof.
  unfold fetchedReceipt. rewrite count_app.
  change (count (is_call "eth_getTransactionReceipt") [receiptCall txHash; LSelect]) with 1.
  f_equal. lia.
Qed.

Lemma selected_next (tr : Trace) (call : Label) (i : nat) :
  is_select call = false ->
  selected nd (tr ++ [call; LSelect]) i = selected nd tr (S i).
Proof.
  intros Hc. unfold selected, count. rewrite filter_app, length_app. simpl.
  rewrite Hc. simpl. f_equal. lia.
Qed.

(** [N] rounds in which the transaction is not mined and the ticker fires
    leave the loop where it started, [N] rounds later. *)
Lemma WaitMined_rounds (N : nat) :
  forall (tr : Trace) (n : nat),
    (forall i, i < N -> is_mined (fetchedReceipt nd txHash tr i) = false) ->
    (forall i, i < N -> selected nd tr i = TickerFired) ->
    run (3 * N + n) nd tr (WaitMined txHash)
    = run n nd (tr ++ rounds (receiptCall txHash) N) (WaitMined txHash).
Proof.
  induction N as [|N IH]; intros tr n Hm Hs.
  - simpl. now rewrite app_nil_r.
  - replace (3 * S N + n) with (S (S (S (3 * N + n)))) by lia.
    rewrite WaitMined_unfold, (Hm 0), (Hs 0) by lia.
    rewrite IH.
    + simpl. rewrite <- app_assoc. reflexivity.
    + intros i Hi. rewrite fetchedReceipt_next. apply Hm. lia.
    + intros i Hi. rewrite selected_next by reflexivity. apply Hs. lia.
Qed.

Lemma fetchedReceipt_rounds (tr : Trace) (N i : nat) :
  fetchedReceipt nd txHash (tr ++ rounds (receiptCall txHash) N) i
  = fetchedReceipt nd txHash tr (N + i).
Proof.
  revert tr. induction N as [|N IH]; intros tr.
  - simpl. now rewrite app_nil_r.
  - simpl rounds.
    change (receiptCall txHash :: LSelect :: rounds (receiptCall txHash) N)
      with ([receiptCall txHash; LSelect] ++ rounds (receiptCall txHash) N).
    rewrite app_assoc, IH, fetchedReceipt_next. reflexivity.
Qed.

Lemma selected_rounds (tr : Trace) (call : Label) (N i : nat) :
  is_select call = false ->
  selected nd (tr ++ rounds call N) i = selected nd tr (N + i).
Proof.
  intros Hc. revert tr. induction N as [|N IH]; intros tr.
  - simpl. now rewrite app_nil_r.
  - simpl rounds.
    change (call :: LSelect :: rounds call N) with ([call; LSelect] ++ rounds call N).
    rewrite app_assoc, IH, selected_next by exact Hc. reflexivity.
Qed.

(** Every way [WaitMined] can end: with a receipt that has a block number
    and no error, or with no receipt and the reason the context is done.
    It never dereferences a nil receipt. *)
Lemma WaitMined_outcomes (n : nat) :
  forall (tr : Trace) (o : Outcome (Returns TransactionReceipt)),
    run n nd tr (WaitMined txHash) = o -> final o ->
    (exists r b tr', o = Returned (Some r, None) tr' /\ BlockNumber_ r = Some b)
    \/ (exists why tr', o = Returned (None, Some (ctx_Err why)) tr').
Proof.
  induction n as [n IH] using lt_wf_ind. intros tr o Hrun Hfin.
  destruct (is_mined (fetchedReceipt nd txHash tr 0)) eqn:Hm.
  - left.
    destruct (fetchedReceipt nd txHash tr 0) as [[r|] [e|]] eqn:Hf; try discriminate.
    simpl in Hm. destruct (BlockNumber_ r) as [b|] eqn:Hb; try discriminate.
    destruct n as [|[|n]].
    + subst o. contradiction.
    + rewrite run_S in Hrun. simpl in Hrun. subst o. contradiction.
    + rewrite (WaitMined_mined n tr r b Hf Hb) in Hrun. subst o. eauto.
  - destruct (Nat.lt_ge_cases n 3) as [Hlt|Hge].
    + destruct (WaitMined_short n tr Hlt Hm) as [tr' Hoof].
      rewrite Hoof in Hrun. subst o. contradiction.
    + destruct n as [|[|[|n]]]; try lia.
      rewrite WaitMined_unfold, Hm in Hrun.
      destruct (selected nd tr 0) as [why|].
      * right. subst o. eauto.
      * eapply (IH n); eauto.
Qed.

Lemma count_rounds (k : nat) :
  count (is_call "eth_getTransactionReceipt") (rounds (receiptCall txHash) k) = k.
Proof.
  induction k as [|k IH]; [reflexivity|].
  simpl rounds.
  change (receiptCall txHash :: LSelect :: rounds (receiptCall txHash) k)
    with ([receiptCall txHash; LSelect] ++ rounds (receiptCall txHash) k).
  rewrite count_app, IH. reflexivity.
Qed.

(** After [k] rounds that end with a tick, a fetch that shows the
    transaction mined makes [WaitMined] return its receipt. *)
Lemma WaitMined_after_ticks (tr : Trace) (k : nat) (r : TransactionReceipt) (b : Z) :
  (forall i, i < k -> is_mined (fetchedReceipt nd txHash tr i) = false) ->
  (forall i, i < k -> selected nd tr i = TickerFired) ->
  fetchedReceipt nd txHash tr k = (Some r, None) ->
  BlockNumber_ r = Some b ->
  forall fuel, 3 * k + 2 <= fuel ->
    run fuel nd tr (WaitMined txHash)
    = Returned (Some r, None) (tr ++ rounds (receiptCall txHash) k ++ [receiptCall txHash]).
Proof.
  intros Hm Hs Hf Hb fuel Hfuel.
  apply (run_more nd (3 * k + 2)); [|exact I|exact Hfuel].
  rewrite WaitMined_rounds by assumption.
  rewrite (WaitMined_mined 0 _ r b); [now rewrite app_assoc| |exact Hb].
  rewrite fetchedReceipt_rounds, Nat.add_0_r. exact Hf.
Qed.

(** With less fuel than a round takes, at most one receipt is fetched. *)
Lemma WaitMined_short_fetches (n : nat) (tr : Trace) :
  n < 3 ->
  count (is_call "eth_getTransactionReceipt") (trace_of (run n nd tr (WaitMined txHash)))
  <= count (is_call "eth_getTransactionReceipt") tr + 1.
Proof.
  intros Hn. destruct n as [|[|[|n]]]; try lia.
  - simpl. lia.
  - simpl. rewrite count_app. change (count _ [_]) with 1. lia.
  - rewrite run_S. simpl.
    destruct (rpc nd TTransactionReceipt _ _ _) as [[r|] [e|]]; simpl;
      try destruct (BlockNumber_ r); simpl;
      rewrite ?count_app;
      repeat match goal with
             | |- context [count ?p [?l]] =>
               let v := eval vm_compute in (count p [l]) in
               change (count p [l]) with v
             end; lia.
Qed.

(** Attempt [k + 1] is made only if the [k] rounds before it ended with a
    tick: when the first [k] fetches do not show the transaction mined and
    the run gets to fetch [k + 1] times, the first [k] waits were ended by
    the ticker. *)
Lemma WaitMined_attempt_needs_ticks (k : nat) :
  forall (fuel : nat) (tr : Trace),
    (forall i, i < k -> is_mined (fetchedReceipt nd txHash tr i) = false) ->
    count (is_call "eth_getTransactionReceipt") tr + k + 1
    <= count (is_call "eth_getTransactionReceipt")
             (trace_of (run fuel nd tr (WaitMined txHash))) ->
    forall i, i < k -> selected nd tr i = TickerFired.
Proof.
  induction k as [|k IH]; intros fuel tr Hm Hc i Hi; [lia|].
  assert (H0 : is_mined (fetchedReceipt nd txHash tr 0) = false) by (apply Hm; lia).
  destruct (Nat.lt_ge_cases fuel 3) as [Hlt|Hge].
  - pose proof (WaitMined_short_fetches fuel tr Hlt). lia.
  - destruct fuel as [|[|[|fuel]]]; try lia.
    rewrite WaitMined_unfold, H0 in Hc.
    destruct (selected nd tr 0) as [why|] eqn:Hs.
    + simpl in Hc. rewrite count_app in Hc.
      change (count _ [receiptCall txHash; LSelect]) with 1 in Hc. lia.
    + destruct i as [|i]; [exact Hs|].
      rewrite <- (selected_next tr (receiptCall txHash)) by reflexivity.
      apply (IH fuel); [| |lia].
      * intros j Hj. rewrite fetchedReceipt_next. apply Hm. lia.
      * rewrite count_app.
        change (count _ [receiptCall txHash; LSelect]) with 1. lia.
Qed.

End WaitMinedRounds.

(** The first thing [WaitMined] does is fetch the receipt. *)
Lemma WaitMined_starts_with_fetch (nd : Node) (txHash : Hash) (tr : Trace) (fuel : nat) :
  1 <= fuel ->
  exists rest, trace_of (run fuel nd tr (WaitMined txHash)) = tr ++ receiptCall txHash :: rest.
Proof.
  destruct fuel as [|fuel]; [lia|]. intros _.
  rewrite run_S. simpl.
  match goal with
  | |- context [run fuel nd ?tr1 ?u] => destruct (run_extends nd fuel tr1 u) as [rest ->]
  end.
  exists rest. now rewrite <- app_assoc.
Qed.

(** [WaitMined] only fetches the receipt and waits. *)
Lemma WaitMined_trace (nd : Node) (txHash : Hash) (fuel : nat) :
  forall tr : Trace,
    exists rest,
      trace_of (run fuel nd tr (WaitMined txHash)) = tr ++ rest
      /\ Forall (fun l => l = receiptCall txHash \/ l = LSelect) rest.
Proof.
  induction fuel as [fuel IH] using lt_wf_ind. intros tr.
  destruct fuel as [|[|[|fuel]]].
  - exists []. split; [simpl; now rewrite app_nil_r | constructor].
  - exists [receiptCall txHash]. split; [reflexivity | repeat constructor].
  - rewrite run_S. simpl.
    destruct (rpc nd TTransactionReceipt _ _ _) as [[r|] [e|]]; simpl;
      try destruct (BlockNumber_ r); simpl;
      (exists [receiptCall txHash]; split; [reflexivity | auto])
      || (exists [receiptCall txHash; LSelect]; split;
          [now rewrite <- app_assoc | auto]).
  - rewrite WaitMined_unfold.
    destruct (is_mined _); [|destruct (selected nd tr 0)].
    + exists [receiptCall txHash]. split; [reflexivity | auto].
    + exists [receiptCall txHash; LSelect]. split; [reflexivity | auto].
    + destruct (IH fuel ltac:(lia) (tr ++ [receiptCall txHash; LSelect])) as (rest & -> & Hall).
      exists ([receiptCall txHash; LSelect] ++ rest).
      split; [now rewrite <- app_assoc|].
      apply Forall_app. split; auto.
Qed.

(* ===================================================================== *)
(** * The loop of [WaitFinalized], round by round                        *)
(* ===================================================================== *)

Lemma Cmp_ge (x y : Z) : (Cmp x y >=? 0)%Z = (y <=? x)%Z.
Proof.
  unfold Cmp. destruct (Z.compare_spec x y); simpl; symmetry.
  - apply Z.leb_le. lia.
  - apply Z.leb_gt. lia.
  - apply Z.leb_le. lia.
Qed.

Section WaitFinalizedRounds.

Variable nd : Node.
Variable receipt : TransactionReceipt.
Variable blockNumber : Z.

Lemma fetchedHeader_0 (tr : Trace) :
  rpc nd THeader "eth_getBlockByNumber" [ABlockNumber BlockNumberFinalized; ABool false]
      (count (is_call "eth_getBlockByNumber") tr) = fetchedHeader nd tr 0.
Proof. unfold fetchedHeader. now rewrite Nat.add_0_r. Qed.

(** One round of the loop, whatever the node answers. *)
Lemma WaitFinalized_unfold (n : nat) (tr : Trace) :
  run (S (S (S n))) nd tr (WaitFinalized_poll receipt blockNumber) =
  match fetch_error (fetchedHeader nd tr 0) with
  | Some e =>
    Returned (None, Some (fmt_Errorf "failed to get finalized block" e)) (tr ++ [finalizedCall])
  | None =>
    if below (fetchedHeader nd tr 0) blockNumber
    then match selected nd tr 0 with
         | CtxDone why =>
           Returned (None, Some (ctx_Err why)) (tr ++ [finalizedCall; LSelect])
         | TickerFired =>
           run n nd (tr ++ [finalizedCall; LSelect]) (WaitFinalized_poll receipt blockNumber)
         end
    else Returned (Some receipt, None) (tr ++ [finalizedCall])
  end.
Proof.
  unfold WaitFinalized_poll. rewrite run_S. simpl. rewrite fetchedHeader_0.
  destruct (fetchedHeader nd tr 0) as [[hd|] [e|]]; simpl; try reflexivity.
  rewrite Cmp_ge, Z.leb_antisym.
  destruct (Number hd <? blockNumber)%Z; simpl; try reflexivity.
  rewrite selected_after_call. destruct (selected nd tr 0);
    rewrite <- app_assoc; reflexivity.
Qed.

(** With less fuel than a round takes, the loop cannot go round. *)
Lemma WaitFinalized_short (n : nat) (tr : Trace) :
  n < 3 ->
  fetch_error (fetchedHeader nd tr 0) = None ->
  below (fetchedHeader nd tr 0) blockNumber = true ->
  exists tr', run n nd tr (WaitFinalized_poll receipt blockNumber) = OutOfFuel tr'.
Proof.
  intros Hn He Hb. unfold WaitFinalized_poll.
  destruct n as [|[|[|n]]]; try lia; [eexists; reflexivity..|].
  rewrite run_S. simpl. rewrite fetchedHeader_0.
  destruct (fetchedHeader nd tr 0) as [[hd|] [e|]]; simpl in *; try discriminate.
  rewrite Cmp_ge, Z.leb_antisym, Hb. simpl. eexists; reflexivity.
Qed.

Lemma fetchedHeader_next (tr : Trace) (i : nat) :
  fetchedHeader nd (tr ++ [finalizedCall; LSelect]) i = fetchedHeader nd tr (S i).
Proof.
  unfold fetchedHeader. rewrite count_app.
  change (count (is_call "eth_getBlockByNumber") [finalizedCall; LSelect]) with 1.
  f_equal. lia.
Qed.

Lemma fetchedHeader_rounds (tr : Trace) (N i : nat) :
  fetchedHeader nd (tr ++ rounds finalizedCall N) i = fetchedHeader nd tr (N + i).
Proof.
  revert tr. induction N as [|N IH]; intros tr.
  - simpl. now rewrite app_nil_r.
  - simpl rounds.
    change (finalizedCall :: LSelect :: rounds finalizedCall N)
      with ([finalizedCall; LSelect] ++ rounds finalizedCall N).
    rewrite app_assoc, IH, fetchedHeader_next. reflexivity.
Qed.

(** [N] rounds in which the finalized block is below the receipt's and the
    ticker fires. *)
Lemma WaitFinalized_rounds (N : nat) :
  forall (tr : Trace) (n : nat),
    (forall i, i < N -> fetch_error (fetchedHeader nd tr i) = None) ->
    (forall i, i < N -> below (fetchedHeader nd tr i) blockNumber = true) ->
    (forall i, i < N -> selected nd tr i = TickerFired) ->
    run (3 * N + n) nd tr (WaitFinalized_poll receipt blockNumber)
    = run n nd (tr ++ rounds finalizedCall N) (WaitFinalized_poll receipt blockNumber).
Proof.
  induction N as [|N IH]; intros tr n He Hb Hs.
  - simpl. now rewrite app_nil_r.
  - replace (3 * S N + n) with (S (S (S (3 * N + n)))) by lia.
    rewrite WaitFinalized_unfold, (He 0), (Hb 0), (Hs 0) by lia.
    rewrite IH.
    + simpl. rewrite <- app_assoc. reflexivity.
    + intros i Hi. rewrite fetchedHeader_next. apply He. lia.
    + intros i Hi. rewrite fetchedHeader_next. apply Hb. lia.
    + intros i Hi. rewrite selected_next by reflexivity. apply Hs. lia.
Qed.

(** Every way the loop can end, with the rounds that led there: [k]
    rounds below the receipt's block and ended by a tick, and then a fetch
    that failed, a finalized block that reached the receipt's, or a
    context that was done. *)
Lemma WaitFinalized_outcomes (n : nat) :
  forall (tr : Trace) (o : Outcome (Returns TransactionReceipt)),
    run n nd tr (WaitFinalized_poll receipt blockNumber) = o -> final o ->
    exists k,
      (forall i, i < k -> fetch_error (fetchedHeader nd tr i) = None) /\
      (forall i, i < k -> below (fetchedHeader nd tr i) blockNumber = true) /\
      (forall i, i < k -> selected nd tr i = TickerFired) /\
      ((exists e, fetch_error (fetchedHeader nd tr k) = Some e /\
                  o = Returned (None, Some (fmt_Errorf "failed to get finalized block" e))
                               (tr ++ rounds finalizedCall k ++ [finalizedCall]))
       \/ (fetch_error (fetchedHeader nd tr k) = None /\
           below (fetchedHeader nd tr k) blockNumber = false /\
           o = Returned (Some receipt, None) (tr ++ rounds finalizedCall k ++ [finalizedCall]))
       \/ (exists why, fetch_error (fetchedHeader nd tr k) = None /\
                       below (fetchedHeader nd tr k) blockNumber = true /\
                       selected nd tr k = CtxDone why /\
                       o = Returned (None, Some (ctx_Err why))
                                    (tr ++ rounds finalizedCall k ++ [finalizedCall; LSelect]))).
Proof.
  induction n as [n IH] using lt_wf_ind. intros tr o Hrun Hfin.
  destruct (fetch_error (fetchedHeader nd tr 0)) as [e|] eqn:He;
    [|destruct (below (fetchedHeader nd tr 0) blockNumber) eqn:Hb].
  - exists 0. repeat split; try (intros; lia). left. exists e. split; [exact He|].
    destruct n as [|[|n]].
    + subst o. contradiction.
    + unfold WaitFinalized_poll in Hrun. rewrite run_S in Hrun. simpl in Hrun.
      subst o. contradiction.
    + rewrite <- Hrun. unfold WaitFinalized_poll. rewrite run_S. simpl.
      rewrite fetchedHeader_0.
      destruct (fetchedHeader nd tr 0) as [[hd|] [e'|]]; simpl in *;
        try discriminate; injection He as <-; reflexivity.
  - destruct (Nat.lt_ge_cases n 3) as [Hlt|Hge].
    + destruct (WaitFinalized_short n tr Hlt He Hb) as [tr' Hoof].
      rewrite Hoof in Hrun. subst o. contradiction.
    + destruct n as [|[|[|n]]]; try lia.
      rewrite WaitFinalized_unfold, He, Hb in Hrun.
      destruct (selected nd tr 0) as [why|] eqn:Hs.
      * exists 0. repeat split; try (intros; lia). right. right. exists why.
        subst o. auto.
      * destruct (IH n ltac:(lia) _ _ Hrun Hfin) as (k & Hke & Hkb & Hks & Hend).
        exists (S k).
        split; [|split; [|split]].
        -- intros [|i] Hi; [exact He|]. rewrite <- fetchedHeader_next. apply Hke. lia.
        -- intros [|i] Hi; [exact Hb|]. rewrite <- fetchedHeader_next. apply Hkb. lia.
        -- intros [|i] Hi; [exact Hs|].
           rewrite <- (selected_next nd tr finalizedCall) by reflexivity. apply Hks. lia.
        -- rewrite <- fetchedHeader_next.
           rewrite <- (selected_next nd tr finalizedCall k) by reflexivity.
           simpl rounds. rewrite <- !app_assoc in Hend. exact Hend.
  - exists 0. repeat split; try (intros; lia). right. left.
    split; [exact He|]. split; [exact Hb|].
    destruct n as [|[|n]].
    + subst o. contradiction.
    + unfold WaitFinalized_poll in Hrun. rewrite run_S in Hrun. simpl in Hrun.
      subst o. contradiction.
    + rewrite <- Hrun. unfold WaitFinalized_poll. rewrite run_S. simpl.
      rewrite fetchedHeader_0.
      destruct (fetchedHeader nd tr 0) as [[hd|] [e'|]]; simpl in *; try discriminate.
      rewrite Cmp_ge, Z.leb_antisym, Hb. reflexivity.
Qed.

End WaitFinalizedRounds.

Lemma header_below (a : CallResult THeader) (bn : Z) :
  (fetch_error a = None /\ below a bn = true)
  <-> exists hd, a = (Some hd, None) /\ (Number hd < bn)%Z.
Proof.
  split.
  - intros [He Hb]. destruct a as [[hd|] [e|]]; try discriminate.
    exists hd. split; [reflexivity|]. now apply Z.ltb_lt.
  - intros (hd & -> & Hlt). split; [reflexivity|]. now apply Z.ltb_lt.
Qed.

Lemma header_reached (a : CallResult THeader) (bn : Z) :
  (fetch_error a = None /\ below a bn = false)
  <-> exists hd, a = (Some hd, None) /\ (bn <= Number hd)%Z.
Proof.
  split.
  - intros [He Hb]. destruct a as [[hd|] [e|]]; try discriminate.
    exists hd. split; [reflexivity|]. simpl in Hb. apply Z.ltb_ge in Hb. exact Hb.
  - intros (hd & -> & Hle). split; [reflexivity|]. now apply Z.ltb_ge.
Qed.

Lemma WaitFinalized_after_mined (r : TransactionReceipt) (bn : Z) :
  BlockNumber_ r = Some bn ->
  WaitFinalized_after (Some r, None) = WaitFinalized_poll r bn.
Proof. intros Hb. unfold WaitFinalized_after. now rewrite Hb. Qed.

(** Every way [WaitFinalized] can return: a receipt and no error, or no
    receipt and a wrapped error or the reason the context is done. *)
Lemma WaitFinalized_returns (nd : Node) (txHash : Hash) (fuel : nat) (tr tr' : Trace)
      (res : option TransactionReceipt) (err : option error) :
  run fuel nd tr (WaitFinalized txHash) = Returned (res, err) tr' ->
  (exists r, res = Some r /\ err = None)
  \/ (res = None /\ exists text e, err = Some (fmt_Errorf text e))
  \/ (res = None /\ exists why, err = Some (ctx_Err why)).
Proof.
  intros Hrun.
  apply run_bind_inv in Hrun. destruct Hrun as ([res1 err1] & tr1 & Hm & Ha).
  destruct (WaitMined_outcomes nd txHash fuel tr _ Hm I)
    as [(r & bn & tr1' & Heq & Hb) | (why & tr1' & Heq)];
    injection Heq as -> -> <-.
  - rewrite (WaitFinalized_after_mined r bn Hb) in Ha.
    destruct (WaitFinalized_outcomes nd r bn fuel tr1 _ Ha I)
      as (k & _ & _ & _ & [(e & _ & Heq) | [(_ & _ & Heq) | (why & _ & _ & _ & Heq)]]);
      injection Heq as -> -> _; eauto 6.
  - destruct fuel; simpl in Ha; [discriminate|].
    injection Ha as <- <- _. eauto 6.
Qed.

(* ===================================================================== *)
(** * The query wrappers: a null response                                *)
(* ===================================================================== *)

Ltac wrapper_cases :=
  unfold not_found_on_null, response; intros;
  match goal with
  | H : 3 <= ?fuel |- _ => destruct fuel as [|[|[|fuel]]]; try lia
  end;
  rewrite run_S; simpl;
  match goal with
  | |- context [rpc ?nd ?ty ?m ?args ?i] =>
    destruct (rpc nd ty m args i) as [[resp|] [e|]]; simpl
  end;
  try match goal with
      | |- context [blockByNumber ?nd ?n ?i] => destruct (blockByNumber nd n i); simpl
      | |- context [blockByHash ?nd ?h ?i] => destruct (blockByHash nd h i); simpl
      end;
  (split; [do 3 eexists; split; [reflexivity | split; congruence]
          | intros Hnull; try discriminate; reflexivity]).

(* ===================================================================== *)
(** * The properties of the specification                                *)
(* ===================================================================== *)

(** C1.  If the receipt fetches of attempts 1 to [k] do not show the
    transaction mined (the call failed, the node answered [null], or the
    receipt has no block number), the wait after each of them ends with a
    tick, and attempt [k + 1] is answered with a receipt [r] that has a
    block number, then [WaitMined] returns [r] with no error at attempt
    [k + 1]: it takes each earlier fetch as "not yet mined" and polls again,
    the trace is [k] rounds of fetch and wait and the fetch that found [r],
    and exactly [k + 1] fetches are made.  For the poll sequence
    [NotFound, NotFound, {blockNumber: 100}] this is the receipt of block
    100 after 3 attempts. *)
Theorem WaitMined_returns_first_mined_receipt
        (nd : Node) (txHash : Hash) (tr : Trace) (k : nat) (r : TransactionReceipt) (b : Z) :
  (forall i, i < k -> is_mined (fetchedReceipt nd txHash tr i) = false) ->
  (forall i, i < k -> selected nd tr i = TickerFired) ->
  fetchedReceipt nd txHash tr k = (Some r, None) ->
  BlockNumber_ r = Some b ->
  forall fuel, 3 * k + 2 <= fuel ->
    run fuel nd tr (WaitMined txHash)
    = Returned (Some r, None) (tr ++ rounds (receiptCall txHash) k ++ [receiptCall txHash])
    /\ attempts nd txHash tr fuel = k + 1.
Proof.
  intros Hm Hs Hf Hb fuel Hfuel.
  pose proof (WaitMined_after_ticks nd txHash tr k r b Hm Hs Hf Hb fuel Hfuel) as Hrun.
  split; [exact Hrun|].
  unfold attempts. rewrite Hrun. simpl trace_of.
  rewrite !count_app, count_rounds. change (count _ [receiptCall txHash]) with 1. lia.
Qed.

Lemma WaitMined_returns_first_mined_receipt_witness :
  run 8 mined_at_third_poll [] (WaitMined 0xAA%Z)
  = Returned (Some (receipt_in (Some 100%Z)), None)
             [receiptCall 0xAA%Z; LSelect; receiptCall 0xAA%Z; LSelect; receiptCall 0xAA%Z]
  /\ attempts mined_at_third_poll 0xAA%Z [] 8 = 3.
Proof.
  apply (WaitMined_returns_first_mined_receipt
           mined_at_third_poll 0xAA%Z [] 2 (receipt_in (Some 100%Z)) 100%Z).
  - intros [|[|i]] Hi; [reflexivity | reflexivity | lia].
  - intros [|[|i]] Hi; [reflexivity | reflexivity | lia].
  - reflexivity.
  - reflexivity.
  - lia.
Defined.

(** C2.  Whenever [WaitFinalized] returns without an error, it returns the
    very receipt [r] that its call of [WaitMined] returned, and it does so
    at the first fetch of the finalized header whose number is greater than
    or equal to the block number of [r]: the [k] fetches before all yielded
    a header below it and were followed by a tick.  Conversely, when
    [WaitMined] returns [r] and the finalized headers go that way,
    [WaitFinalized] returns [r]. *)
Theorem WaitFinalized_returns_the_mined_receipt (nd : Node) (txHash : Hash) (tr : Trace) :
  (forall fuel res tr',
      run fuel nd tr (WaitFinalized txHash) = Returned (res, None) tr' ->
      exists r bn tr1 k,
        res = Some r /\
        run fuel nd tr (WaitMined txHash) = Returned (Some r, None) tr1 /\
        BlockNumber_ r = Some bn /\
        (forall i, i < k ->
           (exists hd, fetchedHeader nd tr1 i = (Some hd, None) /\ (Number hd < bn)%Z)
           /\ selected nd tr1 i = TickerFired) /\
        (exists hd, fetchedHeader nd tr1 k = (Some hd, None) /\ (bn <= Number hd)%Z) /\
        tr' = tr1 ++ rounds finalizedCall k ++ [finalizedCall])
  /\ (forall fuel r bn tr1 k,
        run fuel nd tr (WaitMined txHash) = Returned (Some r, None) tr1 ->
        BlockNumber_ r = Some bn ->
        (forall i, i < k ->
           (exists hd, fetchedHeader nd tr1 i = (Some hd, None) /\ (Number hd < bn)%Z)
           /\ selected nd tr1 i = TickerFired) ->
        (exists hd, fetchedHeader nd tr1 k = (Some hd, None) /\ (bn <= Number hd)%Z) ->
        run (fuel + (3 * k + 3)) nd tr (WaitFinalized txHash)
        = Returned (Some r, None) (tr1 ++ rounds finalizedCall k ++ [finalizedCall])).
Proof.
  split.
  - intros fuel res tr' Hrun.
    apply run_bind_inv in Hrun. destruct Hrun as ([res1 err1] & tr1 & Hm & Ha).
    destruct (WaitMined_outcomes nd txHash fuel tr _ Hm I)
      as [(r & bn & tr1' & Heq & Hb) | (why & tr1' & Heq)];
      injection Heq as -> -> <-.
    + rewrite (WaitFinalized_after_mined r bn Hb) in Ha.
      destruct (WaitFinalized_outcomes nd r bn fuel tr1 _ Ha I)
        as (k & Hke & Hkb & Hks & [(e & _ & Heq) | [(He & Hbl & Heq) | (why & _ & _ & _ & Heq)]]);
        try discriminate.
      injection Heq as -> ->.
      exists r, bn, tr1, k. repeat split; auto.
      * apply header_below. auto.
      * apply header_reached. auto.
    + destruct fuel; simpl in Ha; discriminate.
  - intros fuel r bn tr1 k Hm Hb Hbelow Hreach.
    eapply run_bind; [exact Hm| |exact I].
    rewrite (WaitFinalized_after_mined r bn Hb).
    rewrite WaitFinalized_rounds.
    + rewrite WaitFinalized_unfold, fetchedHeader_rounds, Nat.add_0_r.
      apply header_reached in Hreach. destruct Hreach as [-> ->].
      now rewrite app_assoc.
    + intros i Hi. apply (proj2 (header_below _ bn)), Hbelow, Hi.
    + intros i Hi. apply (proj2 (header_below _ bn)), Hbelow, Hi.
    + intros i Hi. apply Hbelow, Hi.
Qed.

Lemma WaitFinalized_returns_the_mined_receipt_witness :
  (exists r bn tr1 k,
      Some (receipt_in (Some 100%Z)) = Some r /\
      run 11 finalized_at_third_poll [] (WaitMined 0xAA%Z) = Returned (Some r, None) tr1 /\
      BlockNumber_ r = Some bn /\
      (forall i, i < k ->
         (exists hd, fetchedHeader finalized_at_third_poll tr1 i = (Some hd, None)
                     /\ (Number hd < bn)%Z)
         /\ selected finalized_at_third_poll tr1 i = TickerFired) /\
      (exists hd, fetchedHeader finalized_at_third_poll tr1 k = (Some hd, None)
                  /\ (bn <= Number hd)%Z) /\
      [receiptCall 0xAA%Z; finalizedCall; LSelect; finalizedCall; LSelect; finalizedCall]
      = tr1 ++ rounds finalizedCall k ++ [finalizedCall])
  /\ run (2 + (3 * 2 + 3)) finalized_at_third_poll [] (WaitFinalized 0xAA%Z)
     = Returned (Some (receipt_in (Some 100%Z)), None)
                ([receiptCall 0xAA%Z] ++ rounds finalizedCall 2 ++ [finalizedCall]).
Proof.
  split.
  - apply (proj1 (WaitFinalized_returns_the_mined_receipt finalized_at_third_poll 0xAA%Z [])).
    vm_compute. reflexivity.
  - apply (proj2 (WaitFinalized_returns_the_mined_receipt finalized_at_third_poll 0xAA%Z [])
                 2 (receipt_in (Some 100%Z)) 100%Z [receiptCall 0xAA%Z] 2).
    + reflexivity.
    + reflexivity.
    + intros [|[|i]] Hi; [| |lia].
      * split; [exists {| Number := 98 |}; split; [reflexivity | simpl; lia] | reflexivity].
      * split; [exists {| Number := 99 |}; split; [reflexivity | simpl; lia] | reflexivity].
    + exists {| Number := 101 |}. split; [reflexivity | simpl; lia].
Defined.

(** C3.  In the loop of [WaitFinalized], a fetch of the finalized header
    that returns an error [e], or that returns no error and no header, makes
    [WaitFinalized] return at once, with no receipt and the error wrapped
    as "failed to get finalized block" ([e] itself, or [NotFound] for the
    missing header): the fetch is the last event, it is not tried again,
    whatever later fetches would have answered.  [WaitMined] is not like
    that: after a failed receipt fetch and a tick it fetches again. *)
Theorem WaitFinalized_fails_at_once_when_fetch_fails
        (nd : Node) (txHash : Hash) (tr : Trace) :
  (forall fuel r bn tr1 k e,
      run fuel nd tr (WaitMined txHash) = Returned (Some r, None) tr1 ->
      BlockNumber_ r = Some bn ->
      (forall i, i < k ->
         (exists hd, fetchedHeader nd tr1 i = (Some hd, None) /\ (Number hd < bn)%Z)
         /\ selected nd tr1 i = TickerFired) ->
      (snd (fetchedHeader nd tr1 k) = Some e
       \/ (fetchedHeader nd tr1 k = (None, None) /\ e = NotFound)) ->
      run (fuel + (3 * k + 3)) nd tr (WaitFinalized txHash)
      = Returned (None, Some (fmt_Errorf "failed to get finalized block" e))
                 (tr1 ++ rounds finalizedCall k ++ [finalizedCall]))
  /\ (forall fuel e,
        snd (fetchedReceipt nd txHash tr 0) = Some e ->
        selected nd tr 0 = TickerFired ->
        4 <= fuel ->
        exists rest,
          trace_of (run fuel nd tr (WaitMined txHash))
          = tr ++ [receiptCall txHash; LSelect; receiptCall txHash] ++ rest).
Proof.
  split.
  - intros fuel r bn tr1 k e Hm Hb Hbelow Hfail.
    assert (He : fetch_error (fetchedHeader nd tr1 k) = Some e).
    { destruct Hfail as [Hs | [-> ->]]; [|reflexivity].
      destruct (fetchedHeader nd tr1 k) as [[hd|] [e'|]]; simpl in *; congruence. }
    eapply run_bind; [exact Hm| |exact I].
    rewrite (WaitFinalized_after_mined r bn Hb).
    rewrite WaitFinalized_rounds.
    + rewrite WaitFinalized_unfold, fetchedHeader_rounds, Nat.add_0_r, He.
      now rewrite app_assoc.
    + intros i Hi. apply (proj2 (header_below _ bn)), Hbelow, Hi.
    + intros i Hi. apply (proj2 (header_below _ bn)), Hbelow, Hi.
    + intros i Hi. apply Hbelow, Hi.
  - intros fuel e He Hs Hfuel.
    destruct fuel as [|[|[|fuel]]]; try lia.
    rewrite WaitMined_unfold, Hs.
    assert (Hm : is_mined (fetchedReceipt nd txHash tr 0) = false).
    { destruct (fetchedReceipt nd txHash tr 0) as [[r|] [e'|]]; simpl in *; congruence. }
    rewrite Hm.
    destruct (WaitMined_starts_with_fetch nd txHash (tr ++ [receiptCall txHash; LSelect]) fuel)
      as [rest ->]; [lia|].
    exists rest. rewrite <- !app_assoc. reflexivity.
Qed.

Lemma WaitFinalized_fails_at_once_when_fetch_fails_witness :
  run (2 + (3 * 0 + 3)) finalized_fetch_fails_once [] (WaitFinalized 0xAA%Z)
  = Returned (None, Some (fmt_Errorf "failed to get finalized block"
                                     (rpc_Error (-32000) "timeout")))
             ([receiptCall 0xAA%Z] ++ rounds finalizedCall 0 ++ [finalizedCall])
  /\ exists rest,
      trace_of (run 5 receipt_fetch_fails_once [] (WaitMined 0xAA%Z))
      = [] ++ [receiptCall 0xAA%Z; LSelect; receiptCall 0xAA%Z] ++ rest.
Proof.
  split.
  - apply (proj1 (WaitFinalized_fails_at_once_when_fetch_fails
                    finalized_fetch_fails_once 0xAA%Z [])
                 2 (receipt_in (Some 100%Z)) 100%Z [receiptCall 0xAA%Z] 0).
    + reflexivity.
    + reflexivity.
    + intros i Hi. lia.
    + left. reflexivity.
  - apply (proj2 (WaitFinalized_fails_at_once_when_fetch_fails
                    receipt_fetch_fails_once 0xAA%Z [])
                 5 (rpc_Error (-32000) "timeout")); [reflexivity | reflexivity | lia].
Defined.




(** C5.  If no receipt fetch ever shows the transaction mined and every wait
    ends with a tick (the context is never done), [WaitMined] never returns:
    whatever the fuel, the run is still going on, and after [3 * k] steps it
    has performed [k] rounds of fetch and wait. *)
Theorem WaitMined_polls_forever (nd : Node) (txHash : Hash) (tr : Trace) :
  (forall i, is_mined (fetchedReceipt nd txHash tr i) = false) ->
  (forall i, selected nd tr i = TickerFired) ->
  (forall fuel, exists tr', run fuel nd tr (WaitMined txHash) = OutOfFuel tr')
  /\ (forall k, run (3 * k) nd tr (WaitMined txHash)
                = OutOfFuel (tr ++ rounds (receiptCall txHash) k)).
Proof.
  intros Hm Hs. split.
  - intros fuel.
    rewrite (Nat.div_mod_eq fuel 3).
    rewrite WaitMined_rounds by auto.
    apply WaitMined_short.
    + apply Nat.mod_upper_bound. lia.
    + rewrite fetchedReceipt_rounds. apply Hm.
  - intros k. rewrite <- (Nat.add_0_r (3 * k)).
    rewrite WaitMined_rounds by auto. reflexivity.
Qed.

Lemma WaitMined_polls_forever_witness :
  (forall fuel, exists tr', run fuel never_mined [] (WaitMined 0xAA%Z) = OutOfFuel tr')
  /\ (forall k, run (3 * k) never_mined [] (WaitMined 0xAA%Z)
                = OutOfFuel ([] ++ rounds (receiptCall 0xAA%Z) k)).
Proof.
  apply (WaitMined_polls_forever never_mined 0xAA%Z []).
  - intros i. unfold fetchedReceipt, never_mined, scripted. simpl.
    destruct i; reflexivity.
  - intros i. unfold selected, never_mined, scripted. simpl.
    destruct i; reflexivity.
Defined.

(** C6.  After its call of [WaitMined], [WaitFinalized] tests the block
    number of the receipt: for a receipt without one and no error it returns
    no receipt and the error "empty tx block number", and does not poll.
    But [WaitMined] returns, when it returns no error, a receipt that has a
    block number; so no run of [WaitFinalized] ever returns that error. *)
Theorem WaitFinalized_block_number_check (nd : Node) (txHash : Hash) :
  (forall (r : TransactionReceipt) (tr : Trace) (fuel : nat),
      BlockNumber_ r = None -> 1 <= fuel ->
      run fuel nd tr (WaitFinalized_after (Some r, None))
      = Returned (None, Some (errors_New "empty tx block number")) tr)
  /\ (forall fuel tr res tr',
        run fuel nd tr (WaitMined txHash) = Returned (res, None) tr' ->
        exists r b, res = Some r /\ BlockNumber_ r = Some b)
  /\ (forall fuel tr res err tr',
        run fuel nd tr (WaitFinalized txHash) = Returned (res, err) tr' ->
        err <> Some (errors_New "empty tx block number")).
Proof.
  split; [|split].
  - intros r tr [|fuel] Hb Hfuel; [lia|].
    unfold WaitFinalized_after. rewrite Hb. reflexivity.
  - intros fuel tr res tr' Hrun.
    destruct (WaitMined_outcomes nd txHash fuel tr _ Hrun I)
      as [(r & b & tr1 & Heq & Hb) | (why & tr1 & Heq)].
    + injection Heq as -> _. eauto.
    + discriminate.
  - intros fuel tr res err tr' Hrun.
    destruct (WaitFinalized_returns nd txHash fuel tr tr' res err Hrun)
      as [(r & _ & ->) | [(_ & text & e & ->) | (_ & [|] & ->)]]; discriminate.
Qed.

Lemma WaitFinalized_block_number_check_witness :
  run 1 never_mined [] (WaitFinalized_after (Some (receipt_in None), None))
  = Returned (None, Some (errors_New "empty tx block number")) []
  /\ (exists r b, Some (receipt_in (Some 100%Z)) = Some r /\ BlockNumber_ r = Some b)
  /\ Some (fmt_Errorf "failed to get finalized block" (rpc_Error (-32000) "timeout"))
     <> Some (errors_New "empty tx block number").
Proof.
  split; [|split].
  - apply (proj1 (WaitFinalized_block_number_check never_mined 0xAA%Z));
      [reflexivity | lia].
  - apply (proj1 (proj2 (WaitFinalized_block_number_check mined_at_third_poll 0xAA%Z))
                 8 [] _ [receiptCall 0xAA%Z; LSelect; receiptCall 0xAA%Z; LSelect;
                         receiptCall 0xAA%Z]).
    reflexivity.
  - apply (proj2 (proj2 (WaitFinalized_block_number_check finalized_fetch_fails_once 0xAA%Z))
                 5 [] None _ [receiptCall 0xAA%Z; finalizedCall]).
    reflexivity.
Defined.

(** C7.  [WaitFinalized] starts with [WaitMined]: as long as [WaitMined] has
    not returned, [WaitFinalized] has done just what [WaitMined] has done.
    When [WaitMined] returns an error [e], [WaitFinalized] returns no
    receipt and [e] wrapped as "failed to wait for tx is mined", so that
    unwrapping gives [e] back, and the trace is the one [WaitMined] left: the
    finalized header is never fetched. *)
Theorem WaitFinalized_propagates_WaitMined_error
        (nd : Node) (txHash : Hash) (tr : Trace) :
  (forall fuel tr1,
      run fuel nd tr (WaitMined txHash) = OutOfFuel tr1 ->
      run fuel nd tr (WaitFinalized txHash) = OutOfFuel tr1)
  /\ (forall fuel res e tr1,
        run fuel nd tr (WaitMined txHash) = Returned (res, Some e) tr1 ->
        run (fuel + 1) nd tr (WaitFinalized txHash)
        = Returned (None, Some (fmt_Errorf "failed to wait for tx is mined" e)) tr1
        /\ errors_Unwrap (fmt_Errorf "failed to wait for tx is mined" e) = Some e
        /\ count (is_call "eth_getBlockByNumber") tr1 = count (is_call "eth_getBlockByNumber") tr).
Proof.
  split.
  - intros fuel tr1 Hrun. apply run_bind_out_of_fuel. exact Hrun.
  - intros fuel res e tr1 Hrun. split; [|split].
    + eapply run_bind; [exact Hrun| |exact I]. reflexivity.
    + reflexivity.
    + destruct (WaitMined_trace nd txHash fuel tr) as (rest & Heq & Hall).
      rewrite Hrun in Heq. simpl in Heq. subst tr1.
      rewrite count_app.
      replace (count (is_call "eth_getBlockByNumber") rest) with 0; [lia|].
      clear -Hall. induction Hall as [|l rest [-> | ->] _ IH]; auto.
Qed.

Lemma WaitFinalized_propagates_WaitMined_error_witness :
  run (3 + 1) cancelled_first_wait [] (WaitFinalized 0xAA%Z)
  = Returned (None, Some (fmt_Errorf "failed to wait for tx is mined" context_Canceled))
             [receiptCall 0xAA%Z; LSelect]
  /\ errors_Unwrap (fmt_Errorf "failed to wait for tx is mined" context_Canceled)
     = Some context_Canceled
  /\ count (is_call "eth_getBlockByNumber") [receiptCall 0xAA%Z; LSelect]
     = count (is_call "eth_getBlockByNumber") [].
Proof.
  apply (proj2 (WaitFinalized_propagates_WaitMined_error cancelled_first_wait 0xAA%Z [])
               3 None context_Canceled [receiptCall 0xAA%Z; LSelect]).
  reflexivity.
Defined.

(** C8.  For a transaction that is already mined (the next two receipt
    fetches are both answered with the receipt [r], which has a block
    number), two calls of [WaitMined] one after the other both return [r]
    with no error, and each performs one receipt fetch and no wait. *)
Theorem WaitMined_idempotent_when_mined
        (nd : Node) (txHash : Hash) (tr : Trace) (r : TransactionReceipt) (b : Z) :
  fetchedReceipt nd txHash tr 0 = (Some r, None) ->
  fetchedReceipt nd txHash tr 1 = (Some r, None) ->
  BlockNumber_ r = Some b ->
  forall fuel, 2 <= fuel ->
    run fuel nd tr (WaitMined txHash)
    = Returned (Some r, None) (tr ++ [receiptCall txHash])
    /\ run fuel nd (tr ++ [receiptCall txHash]) (WaitMined txHash)
       = Returned (Some r, None) ((tr ++ [receiptCall txHash]) ++ [receiptCall txHash])
    /\ run (fuel + (fuel + 1)) nd tr
           (first <- WaitMined txHash ;; second <- WaitMined txHash ;; Ret (first, second))
       = Returned ((Some r, None), (Some r, None))
                  (tr ++ [receiptCall txHash; receiptCall txHash]).
Proof.
  intros H0 H1 Hb fuel Hfuel.
  assert (Hfirst : run fuel nd tr (WaitMined txHash)
                   = Returned (Some r, None) (tr ++ [receiptCall txHash])).
  { destruct fuel as [|[|fuel]]; try lia. apply (WaitMined_mined nd txHash fuel tr r b H0 Hb). }
  assert (Hsecond : run fuel nd (tr ++ [receiptCall txHash]) (WaitMined txHash)
                    = Returned (Some r, None)
                               ((tr ++ [receiptCall txHash]) ++ [receiptCall txHash])).
  { destruct fuel as [|[|fuel]]; try lia.
    apply (WaitMined_mined nd txHash fuel _ r b); [|exact Hb].
    unfold fetchedReceipt in *. rewrite count_app.
    change (count _ [receiptCall txHash]) with 1.
    rewrite <- H1. f_equal. lia. }
  split; [exact Hfirst|]. split; [exact Hsecond|].
  eapply run_bind; [exact Hfirst| |exact I].
  eapply run_bind; [exact Hsecond| |exact I].
  rewrite <- app_assoc. reflexivity.
Qed.

Lemma WaitMined_idempotent_when_mined_witness :
  run 2 cancelled_but_mined [] (WaitMined 0xAA%Z)
  = Returned (Some (receipt_in (Some 100%Z)), None) ([] ++ [receiptCall 0xAA%Z])
  /\ run 2 cancelled_but_mined ([] ++ [receiptCall 0xAA%Z]) (WaitMined 0xAA%Z)
     = Returned (Some (receipt_in (Some 100%Z)), None)
                (([] ++ [receiptCall 0xAA%Z]) ++ [receiptCall 0xAA%Z])
  /\ run (2 + (2 + 1)) cancelled_but_mined []
         (first <- WaitMined 0xAA%Z ;; second <- WaitMined 0xAA%Z ;; Ret (first, second))
     = Returned ((Some (receipt_in (Some 100%Z)), None), (Some (receipt_in (Some 100%Z)), None))
                ([] ++ [receiptCall 0xAA%Z; receiptCall 0xAA%Z]).
Proof.
  apply (WaitMined_idempotent_when_mined
           cancelled_but_mined 0xAA%Z [] (receipt_in (Some 100%Z)) 100%Z);
    [reflexivity | reflexivity | reflexivity | lia].
Defined.

(** C9.  Each of [GetTransactionReceipt], [GetTransaction],
    [GetBlockByNumber], [GetBlockByHash], [ZksGetL2ToL1LogProof] and
    [ZksGetBlockDetails] returns, whatever the node answers, a non-nil result
    exactly when it returns no error; and when the RPC call succeeds with a
    [null] response, the wrapper returns no result and the error
    [ethereum.NotFound], not a zero or empty value. *)
Theorem query_wrappers_not_found_on_null (nd : Node) (tr : Trace) :
  (forall txHash,
      not_found_on_null nd tr TTransactionReceipt "eth_getTransactionReceipt"
                        [AHash txHash] (GetTransactionReceipt txHash))
  /\ (forall txHash,
        not_found_on_null nd tr TTransactionResponse "eth_getTransactionByHash"
                          [AHash txHash] (GetTransaction txHash))
  /\ (forall blockNumber,
        not_found_on_null nd tr TTmpBlockByNumber "eth_getBlockByNumber"
                          [ABlockNumber blockNumber; ABool false]
                          (GetBlockByNumber blockNumber))
  /\ (forall blockHash,
        not_found_on_null nd tr TTmpBlockByHash "eth_getBlockByHash"
                          [AHash blockHash; ABool false] (GetBlockByHash blockHash))
  /\ (forall txHash logIndex,
        not_found_on_null nd tr TL2ToL1MessageProof "zks_getL2ToL1LogProof"
                          [AHash txHash; AInt logIndex]
                          (ZksGetL2ToL1LogProof txHash logIndex))
  /\ (forall block,
        not_found_on_null nd tr TBlockDetails "zks_getBlockDetails"
                          [AUint32 block] (ZksGetBlockDetails block)).
Proof.
  split; [|split; [|split; [|split; [|split]]]]; wrapper_cases.
Qed.

Lemma query_wrappers_not_found_on_null_witness :
  run 3 never_mined [] (GetTransactionReceipt 0xAA%Z)
  = Returned (None, Some NotFound) [LCall "eth_getTransactionReceipt" [AHash 0xAA%Z]]
  /\ run 3 never_mined [] (ZksGetBlockDetails 7%Z)
     = Returned (None, Some NotFound) [LCall "zks_getBlockDetails" [AUint32 7%Z]].
Proof.
  split.
  - apply (proj1 (query_wrappers_not_found_on_null never_mined []) 0xAA%Z 3); [lia | reflexivity].
  - apply (proj2 (proj2 (proj2 (proj2 (proj2
             (query_wrappers_not_found_on_null never_mined []))))) 7%Z 3); [lia | reflexivity].
Defined.

(** C10.  [WaitMined] looks at the context only after a receipt fetch: the
    first thing every call does is fetch the receipt, whatever the state of
    the context, and if this first fetch is answered with a receipt [r] that
    has a block number, [WaitMined] returns [r] with no error and without
    having looked at the context at all, also when the context was done
    before the call. *)
Theorem WaitMined_fetches_before_looking_at_context
        (nd : Node) (txHash : Hash) (tr : Trace) :
  (forall fuel, 1 <= fuel ->
     exists rest, trace_of (run fuel nd tr (WaitMined txHash))
                  = tr ++ receiptCall txHash :: rest)
  /\ (forall (r : TransactionReceipt) (b : Z),
        fetchedReceipt nd txHash tr 0 = (Some r, None) ->
        BlockNumber_ r = Some b ->
        forall fuel, 2 <= fuel ->
          run fuel nd tr (WaitMined txHash)
          = Returned (Some r, None) (tr ++ [receiptCall txHash])).
Proof.
  split.
  - apply WaitMined_starts_with_fetch.
  - intros r b Hf Hb [|[|fuel]] Hfuel; try lia.
    apply (WaitMined_mined nd txHash fuel tr r b Hf Hb).
Qed.

Lemma WaitMined_fetches_before_looking_at_context_witness :
  (forall i, selectCase cancelled_but_mined i = CtxDone Canceled)
  /\ run 2 cancelled_but_mined [] (WaitMined 0xAA%Z)
     = Returned (Some (receipt_in (Some 100%Z)), None) ([] ++ [receiptCall 0xAA%Z]).
Proof.
  split.
  - intros i. unfold cancelled_but_mined, scripted. simpl. destruct i; reflexivity.
  - apply (proj2 (WaitMined_fetches_before_looking_at_context cancelled_but_mined 0xAA%Z [])
                 (receipt_in (Some 100%Z)) 100%Z); [reflexivity | reflexivity | lia].
Defined.

(* ===================================================================== *)
(** * Further properties of the waiters                                  *)
(* ===================================================================== *)

(** A sequence [x <- t ;; k x] with [n] units of fuel: either [t] returns
    and the rest runs from there, with the fuel [t] has not used, or [t]
    panics or is still running, and so is the sequence. *)
Lemma run_bind_cases {T R : Type} (nd : Node) (n : nat) :
  forall (tr : Trace) (t : itree providerE T) (k : T -> itree providerE R),
    (exists r tr1 m,
        m <= n /\ run n nd tr t = Returned r tr1
        /\ run n nd tr (ITree.bind t k) = run m nd tr1 (k r)
        /\ (forall n0 r0 tr0, run n0 nd tr t = Returned r0 tr0 -> n < n0 + m))
    \/ (exists tr1, run n nd tr t = Panicked tr1
                    /\ run n nd tr (ITree.bind t k) = Panicked tr1)
    \/ (exists tr1, run n nd tr t = OutOfFuel tr1
                    /\ run n nd tr (ITree.bind t k) = OutOfFuel tr1).
Proof.
  induction n as [|n IH]; intros tr t k.
  - right. right. exists tr. split; reflexivity.
  - rewrite run_bind_step, (run_S nd n tr t).
    destruct (observe t) as [r|t'|X e h] eqn:Hobs.
    + left. exists r, tr, (S n). repeat split; auto.
      intros [|n0] r0 tr0 H0; [discriminate | lia].
    + destruct (IH tr t' k)
        as [(r & tr1 & m & Hm & Ht & Hb & Hlow) | [(tr1 & Ht & Hb) | (tr1 & Ht & Hb)]].
      * left. exists r, tr1, m. repeat split; auto.
        intros [|n0] r0 tr0 H0; [discriminate|].
        rewrite run_S, Hobs in H0. apply Hlow in H0. lia.
      * right. left. eauto.
      * right. right. eauto.
    + rewrite run_S. simpl.
      destruct e;
        try (match goal with
             | |- context [run n nd ?tr1 (ITree.bind ?u k)] =>
               destruct (IH tr1 u k)
                 as [(r & tr2 & m & Hm & Ht & Hb & Hlow)
                    | [(tr2 & Ht & Hb) | (tr2 & Ht & Hb)]];
               [left; exists r, tr2, m; repeat split; auto;
                intros [|n0] r0 tr0 H0; [discriminate|];
                rewrite run_S, Hobs in H0; apply Hlow in H0; lia
               |right; left; eauto
               |right; right; eauto]
             end).
      right. left. eauto.
Qed.

(** The loop of [WaitFinalized] only fetches the finalized header and
    waits. *)
Lemma WaitFinalized_poll_trace (nd : Node) (receipt : TransactionReceipt) (bn : Z)
      (fuel : nat) :
  forall tr : Trace,
    exists rest,
      trace_of (run fuel nd tr (WaitFinalized_poll receipt bn)) = tr ++ rest
      /\ Forall (fun l => l = finalizedCall \/ l = LSelect) rest.
Proof.
  induction fuel as [fuel IH] using lt_wf_ind. intros tr.
  destruct fuel as [|[|[|fuel]]].
  - exists []. split; [simpl; now rewrite app_nil_r | constructor].
  - exists [finalizedCall]. split; [reflexivity | repeat constructor].
  - unfold WaitFinalized_poll. rewrite run_S. simpl.
    destruct (rpc nd THeader _ _ _) as [[hd|] [e|]]; simpl;
      try destruct (Cmp (Number hd) bn >=? 0)%Z; simpl;
      (exists [finalizedCall]; split; [reflexivity | auto])
      || (exists [finalizedCall; LSelect]; split;
          [now rewrite <- app_assoc | auto]).
  - rewrite WaitFinalized_unfold.
    destruct (fetch_error _); [|destruct (below _ _); [destruct (selected nd tr 0)|]].
    + exists [finalizedCall]. split; [reflexivity | auto].
    + exists [finalizedCall; LSelect]. split; [reflexivity | auto].
    + destruct (IH fuel ltac:(lia) (tr ++ [finalizedCall; LSelect])) as (rest & -> & Hall).
      exists ([finalizedCall; LSelect] ++ rest).
      split; [now rewrite <- app_assoc|].
      apply Forall_app. split; auto.
    + exists [finalizedCall]. split; [reflexivity | auto].
Qed.

(** X1.  [WaitMined] fails only by the context.  Every run that ends, ends
    by returning; it returns either a receipt that has a block number and
    no error, or no receipt and [ctx.Err()].  It never panics on a nil
    receipt, and an error of the receipt fetch, whatever it is, never
    reaches the caller. *)
Theorem WaitMined_fails_only_by_context
        (nd : Node) (txHash : Hash) (tr : Trace) (fuel : nat)
        (o : Outcome (Returns TransactionReceipt)) :
  run fuel nd tr (WaitMined txHash) = o ->
  final o ->
  exists res err tr',
    o = Returned (res, err) tr'
    /\ (res <> None <-> err = None)
    /\ (forall r, res = Some r -> BlockNumber_ r <> None)
    /\ (forall e, err = Some e -> e = context_Canceled \/ e = context_DeadlineExceeded).
Proof.
  intros Hrun Hfin.
  destruct (WaitMined_outcomes nd txHash fuel tr o Hrun Hfin)
    as [(r & b & tr' & -> & Hb) | (why & tr' & ->)].
  - exists (Some r), None, tr'. repeat split; congruence.
  - exists None, (Some (ctx_Err why)), tr'. repeat split; try congruence.
    intros e [= <-]. destruct why; auto.
Qed.

Lemma WaitMined_fails_only_by_context_witness :
  exists res err tr',
    Returned (None, Some context_Canceled) [receiptCall 0xAA%Z; LSelect]
    = Returned (res, err) tr'
    /\ (res <> None <-> err = None)
    /\ (forall r : TransactionReceipt, res = Some r -> BlockNumber_ r <> None)
    /\ (forall e, err = Some e -> e = context_Canceled \/ e = context_DeadlineExceeded).
Proof.
  apply (WaitMined_fails_only_by_context cancelled_first_wait 0xAA%Z [] 3);
    [reflexivity | exact I].
Defined.

(** What is left of [WaitFinalized] once [WaitMined] has returned does
    nothing but fetch the finalized header and wait. *)
Lemma WaitFinalized_after_trace (nd : Node) (mined : Returns TransactionReceipt)
      (fuel : nat) (tr : Trace) :
  exists rest,
    trace_of (run fuel nd tr (WaitFinalized_after mined)) = tr ++ rest
    /\ Forall (fun l => l = finalizedCall \/ l = LSelect) rest.
Proof.
  destruct mined as [[r|] [e|]]; simpl;
    try (exists []; split; [destruct fuel; simpl; now rewrite app_nil_r | constructor]).
  destruct (BlockNumber_ r) as [bn|].
  - apply WaitFinalized_poll_trace.
  - exists []. split; [destruct fuel; simpl; now rewrite app_nil_r | constructor].
Qed.

(** X2.  Every run of [WaitFinalized] that ends, ends by returning, and
    returns either a receipt and no error or no receipt and an error; a
    receipt it returns has a block number.  None of the three pointers it
    dereferences (the receipt in the test of [WaitMined], the receipt
    after [WaitMined], the finalized header) is ever nil when it is read. *)
Theorem WaitFinalized_receipt_or_error
        (nd : Node) (txHash : Hash) (tr : Trace) (fuel : nat)
        (o : Outcome (Returns TransactionReceipt)) :
  run fuel nd tr (WaitFinalized txHash) = o ->
  final o ->
  exists res err tr',
    o = Returned (res, err) tr'
    /\ (res <> None <-> err = None)
    /\ (forall r, res = Some r -> BlockNumber_ r <> None).
Proof.
  intros Hrun Hfin. unfold WaitFinalized in Hrun.
  destruct (run_bind_cases nd fuel tr (WaitMined txHash)
                           (fun mined => WaitFinalized_after mined))
    as [(mined & tr1 & m & Hm & Ht & Hb & _) | [(tr1 & Ht & Hb) | (tr1 & Ht & Hb)]];
    rewrite Hb in Hrun.
  - destruct (WaitMined_outcomes nd txHash fuel tr _ Ht I)
      as [(r & bn & tr1' & Heq & Hbn) | (why & tr1' & Heq)];
      injection Heq as -> <-.
    + rewrite (WaitFinalized_after_mined r bn Hbn) in Hrun.
      destruct (WaitFinalized_outcomes nd r bn m tr1 o Hrun Hfin)
        as (k & _ & _ & _ & [(e & _ & ->) | [(_ & _ & ->) | (why & _ & _ & _ & ->)]]);
        do 3 eexists; (split; [reflexivity|]); repeat split; congruence.
    + destruct m as [|m]; simpl in Hrun; subst o; [contradiction|].
      do 3 eexists. split; [reflexivity|]. repeat split; congruence.
  - destruct (WaitMined_outcomes nd txHash fuel tr _ Ht I)
      as [(r & bn & tr1' & Heq & _) | (why & tr1' & Heq)]; discriminate.
  - subst o. contradiction.
Qed.

Lemma WaitFinalized_receipt_or_error_witness :
  exists res err tr',
    Returned (None, Some (fmt_Errorf "failed to get finalized block"
                                     (rpc_Error (-32000) "timeout")))
             [receiptCall 0xAA%Z; finalizedCall]
    = Returned (res, err) tr'
    /\ (res <> None <-> err = None)
    /\ (forall r : TransactionReceipt, res = Some r -> BlockNumber_ r <> None).
Proof.
  apply (WaitFinalized_receipt_or_error finalized_fetch_fails_once 0xAA%Z [] 5);
    [reflexivity | exact I].
Defined.

(** X3.  A context that is done while [WaitFinalized] waits for the
    finalized block makes it return no receipt and [ctx.Err()] itself, not
    wrapped (the error of a context done while it waits for the receipt
    comes wrapped as "failed to wait for tx is mined"). *)
Theorem WaitFinalized_cancelled_while_finalizing
        (nd : Node) (txHash : Hash) (tr tr1 : Trace) (fuel k : nat)
        (r : TransactionReceipt) (bn : Z) (why : ctxReason) :
  run fuel nd tr (WaitMined txHash) = Returned (Some r, None) tr1 ->
  BlockNumber_ r = Some bn ->
  (forall i, i <= k ->
     exists hd, fetchedHeader nd tr1 i = (Some hd, None) /\ (Number hd < bn)%Z) ->
  (forall i, i < k -> selected nd tr1 i = TickerFired) ->
  selected nd tr1 k = CtxDone why ->
  run (fuel + (3 * k + 3)) nd tr (WaitFinalized txHash)
  = Returned (None, Some (ctx_Err why))
             (tr1 ++ rounds finalizedCall k ++ [finalizedCall; LSelect]).
Proof.
  intros Hm Hb Hbelow Hs Hc.
  eapply run_bind; [exact Hm| |exact I].
  rewrite (WaitFinalized_after_mined r bn Hb).
  rewrite WaitFinalized_rounds.
  - rewrite WaitFinalized_unfold, fetchedHeader_rounds, selected_rounds by reflexivity.
    rewrite Nat.add_0_r, Hc.
    destruct (proj2 (header_below (fetchedHeader nd tr1 k) bn) (Hbelow k (le_n k)))
      as [-> ->].
    now rewrite app_assoc.
  - intros i Hi. apply (proj2 (header_below _ bn)), Hbelow. lia.
  - intros i Hi. apply (proj2 (header_below _ bn)), Hbelow. lia.
  - exact Hs.
Qed.

Lemma WaitFinalized_cancelled_while_finalizing_witness :
  run (2 + (3 * 0 + 3)) cancelled_while_finalizing [] (WaitFinalized 0xAA%Z)
  = Returned (None, Some (ctx_Err Canceled))
             ([receiptCall 0xAA%Z] ++ rounds finalizedCall 0 ++ [finalizedCall; LSelect]).
Proof.
  apply (WaitFinalized_cancelled_while_finalizing
           cancelled_while_finalizing 0xAA%Z [] [receiptCall 0xAA%Z] 2 0
           (receipt_in (Some 100%Z)) 100%Z Canceled).
  - reflexivity.
  - reflexivity.
  - intros i Hi. assert (i = 0) as -> by lia.
    exists {| Number := 98 |}. split; [reflexivity | simpl; lia].
  - intros i Hi. lia.
  - reflexivity.
Defined.

(** X4.  Once the transaction is mined, [WaitFinalized] has no bound on the
    number of fetches of the finalized header either: while every fetch
    yields a header below the block of the receipt and every wait ends with
    a tick, it never returns, and [3 * k] steps after [WaitMined] has
    returned it has gone round its loop [k] times. *)
Theorem WaitFinalized_polls_forever
        (nd : Node) (txHash : Hash) (tr tr1 : Trace) (fuel0 : nat)
        (r : TransactionReceipt) (bn : Z) :
  run fuel0 nd tr (WaitMined txHash) = Returned (Some r, None) tr1 ->
  BlockNumber_ r = Some bn ->
  (forall i, exists hd, fetchedHeader nd tr1 i = (Some hd, None) /\ (Number hd < bn)%Z) ->
  (forall i, selected nd tr1 i = TickerFired) ->
  (forall fuel, exists tr', run fuel nd tr (WaitFinalized txHash) = OutOfFuel tr')
  /\ (forall k, exists rest,
         run (fuel0 + 3 * k) nd tr (WaitFinalized txHash)
         = OutOfFuel (tr1 ++ rounds finalizedCall k ++ rest)).
Proof.
  intros Hm Hb Hbelow Hs.
  assert (He : forall i, fetch_error (fetchedHeader nd tr1 i) = None
                         /\ below (fetchedHeader nd tr1 i) bn = true).
  { intros i. apply (proj2 (header_below _ bn)), Hbelow. }
  assert (Hpoll : forall k m tr2,
             tr2 = tr1 ++ rounds finalizedCall k ->
             exists tr', run m nd tr2 (WaitFinalized_poll r bn) = OutOfFuel tr').
  { intros k m tr2 ->. rewrite (Nat.div_mod_eq m 3).
    rewrite WaitFinalized_rounds.
    - apply WaitFinalized_short.
      + apply Nat.mod_upper_bound. lia.
      + rewrite !fetchedHeader_rounds. apply He.
      + rewrite !fetchedHeader_rounds. apply He.
    - intros i _. rewrite fetchedHeader_rounds. apply He.
    - intros i _. rewrite fetchedHeader_rounds. apply He.
    - intros i _. rewrite selected_rounds by reflexivity. apply Hs. }
  split.
  - intros fuel. unfold WaitFinalized.
    destruct (run_bind_cases nd fuel tr (WaitMined txHash)
                             (fun mined => WaitFinalized_after mined))
      as [(mined & tr2 & m & _ & Ht & -> & _) | [(tr2 & Ht & ->) | (tr2 & Ht & ->)]].
    + pose proof (run_deterministic nd _ _ _ _ _ _ Hm I Ht I) as Heq.
      injection Heq as <- <-.
      rewrite (WaitFinalized_after_mined r bn Hb).
      apply (Hpoll 0). simpl. now rewrite app_nil_r.
    + pose proof (run_deterministic nd _ _ _ _ _ _ Hm I Ht I). discriminate.
    + eauto.
  - intros k. unfold WaitFinalized.
    destruct (run_bind_cases nd (fuel0 + 3 * k) tr (WaitMined txHash)
                             (fun mined => WaitFinalized_after mined))
      as [(mined & tr2 & m & Hle & Ht & -> & Hlow) | [(tr2 & Ht & _) | (tr2 & Ht & _)]].
    + pose proof (run_deterministic nd _ _ _ _ _ _ Hm I Ht I) as Heq.
      injection Heq as <- <-.
      specialize (Hlow _ _ _ Hm).
      rewrite (WaitFinalized_after_mined r bn Hb).
      replace m with (3 * k + (m - 3 * k)) by lia.
      rewrite WaitFinalized_rounds;
        [|intros i _; apply He..|intros i _; apply Hs].
      destruct (Hpoll k (m - 3 * k) _ eq_refl) as [tr' Hoof].
      destruct (run_extends nd (m - 3 * k) (tr1 ++ rounds finalizedCall k)
                            (WaitFinalized_poll r bn)) as [rest Hrest].
      rewrite Hoof in Hrest |- *. simpl in Hrest. subst tr'.
      exists rest. now rewrite app_assoc.
    + pose proof (run_deterministic nd _ _ _ _ _ _ Hm I Ht I). discriminate.
    + rewrite (run_more nd fuel0 tr _ _ Hm I (fuel0 + 3 * k)) in Ht by lia.
      discriminate.
Qed.

Lemma WaitFinalized_polls_forever_witness :
  (forall fuel, exists tr',
      run fuel never_finalized [] (WaitFinalized 0xAA%Z) = OutOfFuel tr')
  /\ (forall k, exists rest,
         run (2 + 3 * k) never_finalized [] (WaitFinalized 0xAA%Z)
         = OutOfFuel ([receiptCall 0xAA%Z] ++ rounds finalizedCall k ++ rest)).
Proof.
  apply (WaitFinalized_polls_forever
           never_finalized 0xAA%Z [] [receiptCall 0xAA%Z] 2 (receipt_in (Some 100%Z)) 100%Z).
  - reflexivity.
  - reflexivity.
  - intros i. exists {| Number := 98 |}. split; [reflexivity | simpl; lia].
  - intros i. reflexivity.
Defined.

(** X5.  [WaitFinalized] fetches the receipt only while it waits for the
    transaction to be mined.  The events of every run, finished or not, are
    receipt fetches and waits, followed by fetches of the finalized header
    and waits: once the finalized header has been asked for, the receipt is
    never fetched again. *)
Theorem WaitFinalized_fetches_receipt_only_while_mining
        (nd : Node) (txHash : Hash) (tr : Trace) (fuel : nat) :
  exists mining finalizing,
    trace_of (run fuel nd tr (WaitFinalized txHash)) = tr ++ mining ++ finalizing
    /\ Forall (fun l => l = receiptCall txHash \/ l = LSelect) mining
    /\ Forall (fun l => l = finalizedCall \/ l = LSelect) finalizing.
Proof.
  unfold WaitFinalized.
  destruct (WaitMined_trace nd txHash fuel tr) as (mining & Hmining & Hall).
  destruct (run_bind_cases nd fuel tr (WaitMined txHash)
                           (fun mined => WaitFinalized_after mined))
    as [(mined & tr1 & m & _ & Ht & -> & _) | [(tr1 & Ht & ->) | (tr1 & Ht & ->)]];
    rewrite Ht in Hmining; simpl in Hmining; subst tr1.
  - destruct (WaitFinalized_after_trace nd mined m (tr ++ mining))
      as (finalizing & -> & Hfin).
    exists mining, finalizing. rewrite <- app_assoc. auto.
  - exists mining, []. rewrite app_nil_r. simpl. auto.
  - exists mining, []. rewrite app_nil_r. simpl. auto.
Qed.

(* ===================================================================== *)
(** * Properties of the other queries                                    *)
(* ===================================================================== *)

(** X6.  [GetBlockByNumber] asks the Ethereum client only after the node
    has answered the tag with a block that is not [null], and then for the
    block of the number the node reported.  The client's block comes back
    with the batch number and timestamp of the node's answer; an error of
    the client comes back as it is, not wrapped. *)
Theorem GetBlockByNumber_asks_client_for_reported_number
        (nd : Node) (tr : Trace) (blockNumber : BlockNumber) (fuel : nat) :
  3 <= fuel ->
  let call := LCall "eth_getBlockByNumber" [ABlockNumber blockNumber; ABool false] in
  let answer := response nd tr TTmpBlockByNumber "eth_getBlockByNumber"
                         [ABlockNumber blockNumber; ABool false] in
  (forall resp, answer = (Some resp, None) ->
     match blockByNumber nd (tmpNumber resp) (count is_eth tr) with
     | inl ethBlock =>
       run fuel nd tr (GetBlockByNumber blockNumber)
       = Returned (Some {| Block_ := ethBlock;
                           L1BatchNumber := tmpL1BatchNumber resp;
                           L1BatchTimestamp := tmpL1BatchTimestamp resp |}, None)
                  (tr ++ [call; LBlockByNumber (tmpNumber resp)])
     | inr err =>
       run fuel nd tr (GetBlockByNumber blockNumber)
       = Returned (None, Some err) (tr ++ [call; LBlockByNumber (tmpNumber resp)])
     end)
  /\ (fst answer = None \/ snd answer <> None ->
      trace_of (run fuel nd tr (GetBlockByNumber blockNumber)) = tr ++ [call]).
Proof.
  intros Hfuel call answer. subst call answer. unfold response.
  destruct fuel as [|[|[|fuel]]]; try lia.
  rewrite run_S. simpl.
  destruct (rpc nd TTmpBlockByNumber _ _ _) as [[resp|] [e|]]; simpl; split;
    try (intros resp' [= <-]); try discriminate;
    try (intros _; reflexivity);
    try (intros [H|H]; [discriminate H | now contradiction H]).
  rewrite count_app. change (count is_eth [_]) with 0. rewrite Nat.add_0_r.
  destruct (blockByNumber nd (tmpNumber resp) (count is_eth tr));
    simpl; rewrite <- app_assoc; reflexivity.
Qed.

Lemma GetBlockByNumber_asks_client_for_reported_number_witness :
  run 3 block_seven [] (GetBlockByNumber "latest"%string)
  = Returned (Some {| Block_ := {| ethNumber := 7%Z; ethHash := 0xB7%Z |};
                      L1BatchNumber := Some 3%Z;
                      L1BatchTimestamp := Some 1000%Z |}, None)
             [LCall "eth_getBlockByNumber" [ABlockNumber "latest"%string; ABool false];
              LBlockByNumber 7%Z].
Proof.
  apply (proj1 (GetBlockByNumber_asks_client_for_reported_number
                  block_seven [] "latest"%string 3 (le_n 3))
               {| tmpNumber := 7%Z; tmpL1BatchNumber := Some 3%Z;
                  tmpL1BatchTimestamp := Some 1000%Z |}).
  reflexivity.
Defined.

(** X7.  [GetBlockByHash] asks the Ethereum client only after the node has
    answered the hash with a block that is not [null], and then for the same
    hash.  The client's block comes back with the batch number and timestamp
    of the node's answer; an error of the client comes back as it is. *)
Theorem GetBlockByHash_asks_client_for_same_hash
        (nd : Node) (tr : Trace) (blockHash : Hash) (fuel : nat) :
  3 <= fuel ->
  let call := LCall "eth_getBlockByHash" [AHash blockHash; ABool false] in
  let answer := response nd tr TTmpBlockByHash "eth_getBlockByHash"
                         [AHash blockHash; ABool false] in
  (forall resp, answer = (Some resp, None) ->
     match blockByHash nd blockHash (count is_eth tr) with
     | inl ethBlock =>
       run fuel nd tr (GetBlockByHash blockHash)
       = Returned (Some {| Block_ := ethBlock;
                           L1BatchNumber := tmpHL1BatchNumber resp;
                           L1BatchTimestamp := tmpHL1BatchTimestamp resp |}, None)
                  (tr ++ [call; LBlockByHash blockHash])
     | inr err =>
       run fuel nd tr (GetBlockByHash blockHash)
       = Returned (None, Some err) (tr ++ [call; LBlockByHash blockHash])
     end)
  /\ (fst answer = None \/ snd answer <> None ->
      trace_of (run fuel nd tr (GetBlockByHash blockHash)) = tr ++ [call]).
Proof.
  intros Hfuel call answer. subst call answer. unfold response.
  destruct fuel as [|[|[|fuel]]]; try lia.
  rewrite run_S. simpl.
  destruct (rpc nd TTmpBlockByHash _ _ _) as [[resp|] [e|]]; simpl; split;
    try (intros resp' [= <-]); try discriminate;
    try (intros _; reflexivity);
    try (intros [H|H]; [discriminate H | now contradiction H]).
  rewrite count_app. change (count is_eth [_]) with 0. rewrite Nat.add_0_r.
  destruct (blockByHash nd blockHash (count is_eth tr));
    simpl; rewrite <- app_assoc; reflexivity.
Qed.

Lemma GetBlockByHash_asks_client_for_same_hash_witness :
  run 3 block_seven [] (GetBlockByHash 0xB7%Z)
  = Returned (Some {| Block_ := {| ethNumber := 7%Z; ethHash := 0xB7%Z |};
                      L1BatchNumber := Some 3%Z;
                      L1BatchTimestamp := Some 1000%Z |}, None)
             [LCall "eth_getBlockByHash" [AHash 0xB7%Z; ABool false];
              LBlockByHash 0xB7%Z].
Proof.
  apply (proj1 (GetBlockByHash_asks_client_for_same_hash
                  block_seven [] 0xB7%Z 3 (le_n 3))
               {| tmpHL1BatchNumber := Some 3%Z; tmpHL1BatchTimestamp := Some 1000%Z |}).
  reflexivity.
Defined.

Ltac query_cases :=
  intros;
  repeat match goal with
         | x := _ |- _ => subst x
         end;
  match goal with
  | H : 2 <= ?fuel |- _ => destruct fuel as [|[|fuel]]; try lia
  end;
  unfold reply in *; simpl;
  match goal with
  | |- context [?rp ?ty ?into ?m ?args (List.length ?l)] =>
    destruct (rp ty into m args (List.length l)) as [res [e|]]; simpl
  end.

(** X8.  [GetBalance], [GetTransactionCount], [EstimateGas], [GetGasPrice],
    [ZksL1ChainId] and [ZksL1BatchNumber] each make one call, of their own
    method; they hand a failure of the call or of [hexutil.DecodeBig] on,
    wrapped and with no number, and the decoded number otherwise. *)
Theorem quantity_queries (I : Imports) (rp : Replies I) (calls : list (Called I)) :
  (forall address blockNumber,
      quantity_query rp calls "eth_getBalance"
                     [QAddress address; QBlockNumber blockNumber]
                     (GetBalance I address blockNumber))
  /\ (forall address blockNumber,
        quantity_query rp calls "eth_getTransactionCount"
                       [QAddress address; QBlockNumber blockNumber]
                       (GetTransactionCount I address blockNumber))
  /\ (forall tx,
        quantity_query rp calls "eth_estimateGas"
                       [QTransaction tx; QBlockNumber (BlockNumberLatest I)]
                       (EstimateGas I tx))
  /\ quantity_query rp calls "eth_gasPrice" [] (GetGasPrice I)
  /\ quantity_query rp calls "zks_L1ChainId" [] (ZksL1ChainId I)
  /\ quantity_query rp calls "zks_L1BatchNumber" [] (ZksL1BatchNumber I).
Proof.
  split; [|split; [|split; [|split; [|split]]]];
    unfold quantity_query; query_cases;
    try (do 2 eexists; split; [reflexivity|];
         split; [intros ? ? [= <- <-]; auto|];
         split; intros; discriminate);
    match goal with
    | |- context [DecodeBig I ?r] => destruct (DecodeBig I r) as [v [e|]] eqn:Hd
    end; simpl;
    (do 2 eexists; split; [reflexivity|];
     split; [intros; discriminate|];
     split; intros;
     match goal with
     | H : (_, None) = (_, None) |- _ => injection H as <-
     end;
     match goal with
     | H : DecodeBig I _ = _ |- _ =>
       rewrite Hd in H; try discriminate H; injection H as ?; subst; auto
     end).
Qed.

Lemma quantity_queries_witness :
  exists res err,
    runQ 2 (toy_replies false false) [] (GetGasPrice toy)
    = QReturned (res, err) ([] ++ [called "eth_gasPrice" []])
    /\ res = None
    /\ err = Some (fmt_Errorf "failed to decode response as big.Int"
                              (errors_New "invalid hex string")).
Proof.
  destruct (proj1 (proj2 (proj2 (proj2 (quantity_queries toy (toy_replies false false) []))))
                  2 (le_n 2)) as (res & err & Hrun & _ & Hdecode & _).
  exists res, err. split; [exact Hrun|].
  apply (Hdecode ""%string None (errors_New "invalid hex string")); reflexivity.
Defined.

(** X9.  [ZksGetL2ToL1MsgProof] makes one call and returns a proof exactly
    when it returns no error: a failed call comes back wrapped, and a
    [null] response is [ethereum.NotFound], with no proof. *)
Theorem ZksGetL2ToL1MsgProof_not_found_on_null
        (I : Imports) (rp : Replies I) (calls : list (Called I))
        (block : Z) (sender : Address) (msg : Hash) (fuel : nat) :
  2 <= fuel ->
  let args := [QUint32 block; QAddress sender; QHash msg] in
  exists res err,
    runQ fuel rp calls (ZksGetL2ToL1MsgProof I block sender msg)
    = QReturned (res, err) (calls ++ [called "zks_getL2ToL1MsgProof" args])
    /\ (res <> None <-> err = None)
    /\ (reply rp calls QProof None "zks_getL2ToL1MsgProof" args = (None, None) ->
        res = None /\ err = Some NotFound)
    /\ (forall resp e,
           reply rp calls QProof None "zks_getL2ToL1MsgProof" args = (resp, Some e) ->
           res = None
           /\ err = Some (fmt_Errorf "failed to query zks_getL2ToL1MsgProof" e)).
Proof.
  intros Hfuel args. subst args. revert Hfuel. query_cases.
  - do 2 eexists. split; [reflexivity|].
    split; [split; congruence|]. split; [congruence|].
    intros ? ? [= <- <-]. auto.
  - destruct res as [proof|]; simpl;
      (do 2 eexists; split; [reflexivity|];
       split; [split; congruence|];
       split; [intros H; try discriminate H; auto|]; intros; discriminate).
Qed.

Lemma ZksGetL2ToL1MsgProof_not_found_on_null_witness :
  exists res err,
    runQ 2 (toy_replies false false) [] (ZksGetL2ToL1MsgProof toy 7%Z 1%Z 0xAA%Z)
    = QReturned (res, err)
                ([] ++ [called "zks_getL2ToL1MsgProof"
                               [QUint32 7%Z; QAddress 1%Z; QHash 0xAA%Z]])
    /\ res = None /\ err = Some NotFound.
Proof.
  destruct (ZksGetL2ToL1MsgProof_not_found_on_null
              toy (toy_replies false false) [] 7%Z 1%Z 0xAA%Z 2 (le_n 2))
    as (res & err & Hrun & _ & Hnull & _).
  exists res, err. split; [exact Hrun|]. apply Hnull. reflexivity.
Defined.

(** X10.  [ZksGetBridgeContracts] and [ZksEstimateFee] have no "not found":
    whenever the call returns no error they return a non-nil pointer, to
    the struct as the call left it (the zero struct, if the node's answer
    left it untouched), and no error; when the call fails, no pointer and
    the wrapped error. *)
Theorem struct_queries_never_not_found
        (I : Imports) (rp : Replies I) (calls : list (Called I)) (fuel : nat) :
  2 <= fuel ->
  (exists res err,
      runQ fuel rp calls (ZksGetBridgeContracts I)
      = QReturned (res, err) (calls ++ [called "zks_getBridgeContracts" []])
      /\ (res <> None <-> err = None)
      /\ (forall v, reply rp calls QBridgeContracts (BridgeContracts_zero I)
                          "zks_getBridgeContracts" [] = (v, None) ->
                    res = Some v)
      /\ (forall v e, reply rp calls QBridgeContracts (BridgeContracts_zero I)
                            "zks_getBridgeContracts" [] = (v, Some e) ->
                      err = Some (fmt_Errorf "failed to query zks_getBridgeContracts" e)))
  /\ (forall tx,
         exists res err,
           runQ fuel rp calls (ZksEstimateFee I tx)
           = QReturned (res, err) (calls ++ [called "zks_estimateFee" [QTransaction tx]])
           /\ (res <> None <-> err = None)
           /\ (forall v, reply rp calls QFee (Fee_zero I)
                               "zks_estimateFee" [QTransaction tx] = (v, None) ->
                         res = Some v)
           /\ (forall v e, reply rp calls QFee (Fee_zero I)
                                 "zks_estimateFee" [QTransaction tx] = (v, Some e) ->
                           err = Some (fmt_Errorf "failed to query zks_estimateFee" e))).
Proof.
  intros Hfuel. split; [|intros tx]; revert Hfuel; query_cases;
    (do 2 eexists; split; [reflexivity|];
     split; [split; congruence|];
     split; [intros ? [= <-] || (intros; discriminate)
            |intros ? ? [= <- <-] || (intros; discriminate)]; reflexivity).
Qed.

Lemma struct_queries_never_not_found_witness :
  exists res err,
    runQ 2 (toy_replies false false) [] (ZksGetBridgeContracts toy)
    = QReturned (res, err) ([] ++ [called "zks_getBridgeContracts" []])
    /\ res = Some (BridgeContracts_zero toy).
Proof.
  destruct (proj1 (struct_queries_never_not_found toy (toy_replies false false) [] 2 (le_n 2)))
    as (res & err & Hrun & _ & Hok & _).
  exists res, err. split; [exact Hrun|]. apply Hok. reflexivity.
Defined.

(** X11.  [GetLogs] makes no call when [toFilterArg] refuses the filter: it
    returns no logs and that error as it is.  Otherwise it makes one call
    with the converted filter and returns the logs and the error just as
    the call left them, not wrapped: logs may come back together with an
    error. *)
Theorem GetLogs_passes_the_call_on
        (I : Imports) (rp : Replies I) (calls : list (Called I)) (q : FilterQuery I)
        (fuel : nat) :
  2 <= fuel ->
  (forall arg e,
      toFilterArg I q = (arg, Some e) ->
      runQ fuel rp calls (GetLogs I q) = QReturned (None, Some e) calls)
  /\ (forall arg,
         toFilterArg I q = (arg, None) ->
         runQ fuel rp calls (GetLogs I q)
         = QReturned (reply rp calls QLogs None "eth_getLogs" [QFilterArg arg])
                     (calls ++ [called "eth_getLogs" [QFilterArg arg]])).
Proof.
  intros Hfuel. destruct fuel as [|[|fuel]]; try lia.
  unfold GetLogs, reply.
  split; intros arg; [intros e|]; intros ->; simpl; [reflexivity|].
  match goal with
  | |- context [rp ?ty ?into ?m ?args ?i] =>
    destruct (rp ty into m args i) as [result err]
  end.
  reflexivity.
Qed.

Lemma GetLogs_passes_the_call_on_witness :
  runQ 2 failing_replies [] (GetLogs toy ""%string)
  = QReturned (None, Some (errors_New "bad filter")) []
  /\ runQ 2 failing_replies [] (GetLogs toy "topic"%string)
     = QReturned (None, Some (rpc_Error (-32000) "timeout"))
                 ([] ++ [called "eth_getLogs" [QFilterArg ("topic"%string : FilterArg toy)]]).
Proof.
  split.
  - apply (proj1 (GetLogs_passes_the_call_on toy failing_replies [] ""%string 2 (le_n 2))
                 ""%string (errors_New "bad filter")).
    reflexivity.
  - apply (proj2 (GetLogs_passes_the_call_on toy failing_replies [] "topic"%string 2 (le_n 2))
                 "topic"%string).
    reflexivity.
Defined.

(** X12.  [SendRawTransaction], [ZksGetMainContract], [ZksGetTestnetPaymaster],
    [ZksIsTokenLiquid] and [ZksGetConfirmedTokens] fail only when their call
    fails: the text of a reply is converted by [common.HexToHash] or
    [common.HexToAddress], which report no error, and a bool or a token
    list is handed on as decoded.  On a failed call they return the zero
    hash, the zero address, [false] or the nil slice, and the error wrapped;
    [ZksGetTestnetPaymaster] wraps it as "failed to query zks_estimateFee". *)
Theorem value_queries_fail_only_with_the_call
        (I : Imports) (rp : Replies I) (calls : list (Called I)) (fuel : nat) :
  2 <= fuel ->
  (forall tx,
      let args := [QText (Encode I tx)] in
      let answer := reply rp calls QString ""%string "eth_sendRawTransaction" args in
      runQ fuel rp calls (SendRawTransaction I tx)
      = QReturned (match snd answer with
                   | Some e => (0%Z, Some (fmt_Errorf "failed to call eth_sendRawTransaction" e))
                   | None => (HexToHash I (fst answer), None)
                   end)
                  (calls ++ [called "eth_sendRawTransaction" args]))
  /\ (let answer := reply rp calls QString ""%string "zks_getMainContract" [] in
      runQ fuel rp calls (ZksGetMainContract I)
      = QReturned (match snd answer with
                   | Some e => (0%Z, Some (fmt_Errorf "failed to query zks_getMainContract" e))
                   | None => (HexToAddress I (fst answer), None)
                   end)
                  (calls ++ [called "zks_getMainContract" []]))
  /\ (let answer := reply rp calls QString ""%string "zks_getTestnetPaymaster" [] in
      runQ fuel rp calls (ZksGetTestnetPaymaster I)
      = QReturned (match snd answer with
                   | Some e => (0%Z, Some (fmt_Errorf "failed to query zks_estimateFee" e))
                   | None => (HexToAddress I (fst answer), None)
                   end)
                  (calls ++ [called "zks_getTestnetPaymaster" []]))
  /\ (forall address,
         let answer := reply rp calls QBool false "zks_isTokenLiquid" [QAddress address] in
         runQ fuel rp calls (ZksIsTokenLiquid I address)
         = QReturned (match snd answer with
                      | Some e => (false, Some (fmt_Errorf "failed to query zks_isTokenLiquid" e))
                      | None => (fst answer, None)
                      end)
                     (calls ++ [called "zks_isTokenLiquid" [QAddress address]]))
  /\ (forall from limit,
         let args := [QUint32 from; QUint8 limit] in
         let answer := reply rp calls QTokens (Some []) "zks_getConfirmedTokens" args in
         runQ fuel rp calls (ZksGetConfirmedTokens I from limit)
         = QReturned (match snd answer with
                      | Some e =>
                        (None, Some (fmt_Errorf "failed to query zks_getConfirmedTokens" e))
                      | None => (fst answer, None)
                      end)
                     (calls ++ [called "zks_getConfirmedTokens" args])).
Proof.
  intros Hfuel.
  split; [|split; [|split; [|split]]]; revert Hfuel; query_cases; reflexivity.
Qed.

Lemma value_queries_fail_only_with_the_call_witness :
  runQ 2 failing_replies [] (ZksGetTestnetPaymaster toy)
  = QReturned (0%Z, Some (fmt_Errorf "failed to query zks_estimateFee"
                                     (rpc_Error (-32000) "timeout")))
              ([] ++ [called "zks_getTestnetPaymaster" []]).
Proof.
  apply (proj1 (proj2 (proj2 (value_queries_fail_only_with_the_call
                                toy failing_replies [] 2 (le_n 2))))).
Defined.

(** X13.  [ZksGetTokenPrice] returns no error exactly when the call
    succeeds and [SetString] accepts the text, and then returns what
    [SetString] returned; so, [SetString] returning a number whenever it
    accepts, it returns a price exactly then.  When [SetString] refuses the
    text, the error is a new one, "failed to decode response as big.Float",
    that wraps nothing, and whatever [SetString] returned is dropped. *)
Theorem ZksGetTokenPrice_decode_error_has_no_cause
        (I : Imports) (rp : Replies I) (calls : list (Called I)) (address : Address)
        (fuel : nat) :
  2 <= fuel ->
  let answer := reply rp calls QString ""%string "zks_getTokenPrice" [QAddress address] in
  exists res err,
    runQ fuel rp calls (ZksGetTokenPrice I address)
    = QReturned (res, err) (calls ++ [called "zks_getTokenPrice" [QAddress address]])
    /\ (forall e, snd answer = Some e ->
                  res = None /\ err = Some (fmt_Errorf "failed to query zks_getTokenPrice" e))
    /\ (snd answer = None ->
        match SetString I (fst answer) with
        | (resp, true) => res = resp /\ err = None
        | (_, false) =>
          res = None
          /\ err = Some (errors_New "failed to decode response as big.Float")
          /\ errors_Unwrap (errors_New "failed to decode response as big.Float") = None
        end)
    /\ (err = None <-> snd answer = None /\ snd (SetString I (fst answer)) = true)
    /\ ((forall text resp, SetString I text = (resp, true) -> resp <> None) ->
        (res <> None <-> snd answer = None /\ snd (SetString I (fst answer)) = true)).
Proof.
  intros Hfuel answer. subst answer. revert Hfuel. query_cases.
  - do 2 eexists. split; [reflexivity|].
    split; [intros ? [= <-]; auto|]. split; [discriminate|].
    split; [split; [discriminate | intros [H _]; discriminate H]|].
    intros _. split; [congruence | intros [H _]; discriminate H].
  - destruct (SetString I res) as [resp [|]] eqn:Hs; simpl;
      (do 2 eexists; split; [reflexivity|]; split; [discriminate|]; split; [auto|]).
    + split; [tauto|]. intros Hc. split; [auto|]. intros _. apply (Hc res resp Hs).
    + split; [split; [discriminate | intros [_ H]; discriminate H]|].
      intros _. split; [congruence | intros [_ H]; discriminate H].
Qed.

Lemma ZksGetTokenPrice_decode_error_has_no_cause_witness :
  exists res err,
    runQ 2 (toy_replies false false) [] (ZksGetTokenPrice toy 1%Z)
    = QReturned (res, err) ([] ++ [called "zks_getTokenPrice" [QAddress 1%Z]])
    /\ (res = None
        /\ err = Some (errors_New "failed to decode response as big.Float")
        /\ errors_Unwrap (errors_New "failed to decode response as big.Float") = None)
    /\ (res <> None <->
        snd (reply (toy_replies false false) [] QString ""%string
                   "zks_getTokenPrice" [QAddress 1%Z]) = None
        /\ snd (SetString toy
                  (fst (reply (toy_replies false false) [] QString ""%string
                              "zks_getTokenPrice" [QAddress 1%Z]))) = true).
Proof.
  destruct (ZksGetTokenPrice_decode_error_has_no_cause
              toy (toy_replies false false) [] 1%Z 2 (le_n 2))
    as (res & err & Hrun & _ & Hok & _ & Hprice).
  exists res, err. split; [exact Hrun|]. split.
  - apply Hok. reflexivity.
  - apply Hprice. intros text resp. simpl.
    destruct (String.eqb text "1.5"); intros H; try discriminate H.
    injection H as <-. discriminate.
Defined.

(* ===================================================================== *)
(** * The balances of an account                                         *)
(* ===================================================================== *)

Section Balances.

Variable I : Imports.

Lemma get_set_same (t : Address) (v : option Z) (resp : Balances) :
  get_balance t (set_balance t v resp) = Some v.
Proof.
  induction resp as [|[t' v'] resp IH]; simpl.
  - now rewrite Z.eqb_refl.
  - destruct (t' =? t)%Z eqn:Heq; simpl.
    + now rewrite Z.eqb_refl.
    + now rewrite Heq.
Qed.

Lemma get_set_other (t t' : Address) (v : option Z) (resp : Balances) :
  t' <> t -> get_balance t (set_balance t' v resp) = get_balance t resp.
Proof.
  intros Hne. induction resp as [|[t0 v0] resp IH]; simpl.
  - destruct (t' =? t)%Z eqn:Heq; [apply Z.eqb_eq in Heq; contradiction | reflexivity].
  - destruct (t0 =? t')%Z eqn:Heq0; simpl.
    + apply Z.eqb_eq in Heq0. subst t0.
      destruct (t' =? t)%Z eqn:Heq; [apply Z.eqb_eq in Heq; contradiction | reflexivity].
    + destruct (t0 =? t)%Z; [reflexivity | exact IH].
Qed.

Lemma find_entry_None (t : Address) (res : list (Address * string)) :
  ~ In t (map fst res) -> find_entry t res = None.
Proof.
  induction res as [|[t' b] res IH]; simpl; intros Hnin; [reflexivity|].
  destruct (t' =? t)%Z eqn:Heq.
  - apply Z.eqb_eq in Heq. tauto.
  - apply IH. tauto.
Qed.

Lemma find_entry_In (t : Address) (b : string) (res : list (Address * string)) :
  NoDup (map fst res) -> In (t, b) res -> find_entry t res = Some b.
Proof.
  induction res as [|[t' b'] res IH]; simpl; intros Hnd Hin; [contradiction|].
  inversion Hnd as [|? ? Hnin Hnd']; subst.
  destruct Hin as [[= -> ->] | Hin].
  - now rewrite Z.eqb_refl.
  - destruct (t' =? t)%Z eqn:Heq.
    + apply Z.eqb_eq in Heq. subst t'.
      exfalso. apply Hnin. apply (in_map fst) in Hin. exact Hin.
    + apply IH; assumption.
Qed.

Lemma find_entry_Some (t : Address) (b : string) (res : list (Address * string)) :
  find_entry t res = Some b -> In (t, b) res.
Proof.
  induction res as [|[t' b'] res IH]; simpl; [discriminate|].
  destruct (t' =? t)%Z eqn:Heq.
  - intros [= ->]. apply Z.eqb_eq in Heq. subst. now left.
  - intros H. right. apply IH, H.
Qed.

(** The entry of a key does not depend on the order of the entries. *)
Lemma find_entry_Permutation (t : Address) (res1 res2 : list (Address * string)) :
  Permutation res1 res2 -> NoDup (map fst res1) ->
  find_entry t res1 = find_entry t res2.
Proof.
  intros Hp Hnd1.
  assert (Hnd2 : NoDup (map fst res2)).
  { eapply Permutation_NoDup; [apply Permutation_map, Hp | exact Hnd1]. }
  destruct (find_entry t res1) as [b|] eqn:H1.
  - symmetry. apply find_entry_In; [exact Hnd2|].
    eapply Permutation_in; [exact Hp|]. apply find_entry_Some, H1.
  - destruct (find_entry t res2) as [b|] eqn:H2; [|reflexivity].
    apply find_entry_Some in H2.
    apply (Permutation_in _ (Permutation_sym Hp)) in H2.
    rewrite (find_entry_In t b res1 Hnd1 H2) in H1. discriminate.
Qed.

(** When every balance decodes, the loop ends with the map of the decoded
    balances, on top of what the map held. *)
Lemma decode_balances_all (res : list (Address * string)) :
  forall resp : Balances,
    NoDup (map fst res) ->
    (forall t b, In (t, b) res -> snd (DecodeBig I b) = None) ->
    exists out,
      decode_balances I res resp = (Some out, None)
      /\ forall t, get_balance t out
                   = match find_entry t res with
                     | Some b => Some (fst (DecodeBig I b))
                     | None => get_balance t resp
                     end.
Proof.
  induction res as [|[t0 b0] res IH]; intros resp Hnd Hall; simpl.
  - exists resp. split; reflexivity.
  - inversion Hnd as [|? ? Hnin Hnd']; subst.
    pose proof (Hall t0 b0 (or_introl eq_refl)) as H0.
    destruct (DecodeBig I b0) as [v err] eqn:Hd. simpl in H0. subst err.
    destruct (IH (set_balance t0 v resp) Hnd') as (out & Hout & Hget).
    { intros t b Hin. apply (Hall t b). now right. }
    exists out. split; [exact Hout|].
    intros t. rewrite Hget.
    destruct (t0 =? t)%Z eqn:Heq.
    + apply Z.eqb_eq in Heq. subst t.
      rewrite (find_entry_None t0 res Hnin), Hd. apply get_set_same.
    + destruct (find_entry t res); [reflexivity|].
      apply get_set_other. intros ->. now rewrite Z.eqb_refl in Heq.
Qed.

(** When a balance does not decode, the loop ends with no map and the
    error of one that does not. *)
Lemma decode_balances_some (res : list (Address * string)) :
  forall resp : Balances,
    (exists t b, In (t, b) res /\ snd (DecodeBig I b) <> None) ->
    exists t b e,
      In (t, b) res /\ snd (DecodeBig I b) = Some e
      /\ decode_balances I res resp
         = (None, Some (fmt_Errorf "failed to decode one of balances as big.Int" e)).
Proof.
  induction res as [|[t0 b0] res IH]; intros resp (t & b & Hin & Hbad); simpl.
  - contradiction.
  - destruct (DecodeBig I b0) as [v [e|]] eqn:Hd.
    + exists t0, b0, e. rewrite Hd. repeat split. now left.
    + destruct Hin as [[= -> ->] | Hin].
      * rewrite Hd in Hbad. now contradiction Hbad.
      * destruct (IH (set_balance t0 v resp)) as (t' & b' & e & Hin' & He & Hrun);
          [eauto|].
        exists t', b', e. repeat split; auto.
Qed.

(** Whether every balance decodes can be told. *)
Lemma all_or_some (res : list (Address * string)) :
  (forall t b, In (t, b) res -> snd (DecodeBig I b) = None)
  \/ (exists t b, In (t, b) res /\ snd (DecodeBig I b) <> None).
Proof.
  induction res as [|[t0 b0] res [IH|(t & b & Hin & Hbad)]].
  - left. intros t b [].
  - destruct (snd (DecodeBig I b0)) as [e|] eqn:Hd.
    + right. exists t0, b0. split; [now left | congruence].
    + left. intros t b [[= <- <-] | Hin]; [exact Hd | apply (IH t b Hin)].
  - right. exists t, b. split; [now right | exact Hbad].
Qed.

End Balances.

(** X14.  [ZksGetAllAccountBalances] returns all the balances or none.  When
    [hexutil.DecodeBig] accepts the balance of every token of the reply, it
    returns a map that holds, for just the tokens of the reply, the decoded
    balance.  When it refuses one, no map comes back, and the error is that
    of a refused balance, wrapped. *)
Theorem ZksGetAllAccountBalances_all_or_nothing
        (I : Imports) (rp : Replies I) (calls : list (Called I)) (address : Address)
        (res : list (Address * string)) (fuel : nat) :
  2 <= fuel ->
  reply rp calls QBalances [] "zks_getAllAccountBalances" [QAddress address] = (res, None) ->
  NoDup (map fst res) ->
  exists out err,
    runQ fuel rp calls (ZksGetAllAccountBalances I address)
    = QReturned (out, err) (calls ++ [called "zks_getAllAccountBalances" [QAddress address]])
    /\ ((forall t b, In (t, b) res -> snd (DecodeBig I b) = None) ->
        err = None
        /\ exists resp,
            out = Some resp
            /\ forall t, get_balance t resp
                         = option_map (fun b => fst (DecodeBig I b)) (find_entry t res))
    /\ ((exists t b, In (t, b) res /\ snd (DecodeBig I b) <> None) ->
        out = None
        /\ exists t b e,
            In (t, b) res /\ snd (DecodeBig I b) = Some e
            /\ err = Some (fmt_Errorf "failed to decode one of balances as big.Int" e)).
Proof.
  intros Hfuel Hreply Hnd.
  destruct fuel as [|[|fuel]]; try lia.
  unfold reply in Hreply. simpl. rewrite Hreply. simpl.
  destruct (decode_balances I res []) as [out err] eqn:Hdec.
  exists out, err. split; [reflexivity|]. split.
  - intros Hall.
    destruct (decode_balances_all I res [] Hnd Hall) as (resp & Hout & Hget).
    rewrite Hout in Hdec. injection Hdec as <- <-.
    split; [reflexivity|]. exists resp. split; [reflexivity|].
    intros t. rewrite Hget. destruct (find_entry t res); reflexivity.
  - intros Hsome.
    destruct (decode_balances_some I res [] Hsome) as (t & b & e & Hin & He & Hout).
    rewrite Hout in Hdec. injection Hdec as <- <-.
    split; [reflexivity|]. eauto 6.
Qed.

Lemma ZksGetAllAccountBalances_all_or_nothing_witness :
  (exists out err,
      runQ 2 (toy_replies false false) [] (ZksGetAllAccountBalances toy 9%Z)
      = QReturned (out, err) ([] ++ [called "zks_getAllAccountBalances" [QAddress 9%Z]])
      /\ err = None
      /\ exists resp,
          out = Some resp
          /\ forall t, get_balance t resp
                       = option_map (fun b => fst (DecodeBig toy b))
                                    (find_entry t [(1%Z, "0x10"%string); (2%Z, "0x0"%string)]))
  /\ (exists out err,
         runQ 2 (toy_replies true false) [] (ZksGetAllAccountBalances toy 9%Z)
         = QReturned (out, err) ([] ++ [called "zks_getAllAccountBalances" [QAddress 9%Z]])
         /\ out = None).
Proof.
  split.
  - destruct (ZksGetAllAccountBalances_all_or_nothing
                toy (toy_replies false false) [] 9%Z
                [(1%Z, "0x10"%string); (2%Z, "0x0"%string)] 2 (le_n 2) eq_refl)
      as (out & err & Hrun & Hall & _).
    { repeat constructor; simpl; intuition discriminate. }
    exists out, err. split; [exact Hrun|]. apply Hall.
    intros t b [[= <- <-] | [[= <- <-] | []]]; reflexivity.
  - destruct (ZksGetAllAccountBalances_all_or_nothing
                toy (toy_replies true false) [] 9%Z
                [(1%Z, "0x10"%string); (2%Z, "16"%string)] 2 (le_n 2) eq_refl)
      as (out & err & Hrun & _ & Hsome).
    { repeat constructor; simpl; intuition discriminate. }
    exists out, err. split; [exact Hrun|]. apply Hsome.
    exists 2%Z, "16"%string. split; [right; left; reflexivity | discriminate].
Defined.

(** X15.  What [ZksGetAllAccountBalances] returns does not depend on the
    order in which the loop visits the balances of the reply: for two
    replies with the same balances, in whatever orders, either both calls
    return no error or both return one, and two maps returned hold the same
    balance under every token. *)
Theorem ZksGetAllAccountBalances_whatever_the_order
        (I : Imports) (rp1 rp2 : Replies I) (calls1 calls2 : list (Called I))
        (address : Address) (res1 res2 : list (Address * string)) (fuel : nat) :
  2 <= fuel ->
  reply rp1 calls1 QBalances [] "zks_getAllAccountBalances" [QAddress address] = (res1, None) ->
  reply rp2 calls2 QBalances [] "zks_getAllAccountBalances" [QAddress address] = (res2, None) ->
  Permutation res1 res2 ->
  NoDup (map fst res1) ->
  exists out1 err1 out2 err2,
    runQ fuel rp1 calls1 (ZksGetAllAccountBalances I address)
    = QReturned (out1, err1)
                (calls1 ++ [called "zks_getAllAccountBalances" [QAddress address]])
    /\ runQ fuel rp2 calls2 (ZksGetAllAccountBalances I address)
       = QReturned (out2, err2)
                   (calls2 ++ [called "zks_getAllAccountBalances" [QAddress address]])
    /\ (err1 = None <-> err2 = None)
    /\ (forall resp1 resp2, out1 = Some resp1 -> out2 = Some resp2 ->
                            forall t, get_balance t resp1 = get_balance t resp2).
Proof.
  intros Hfuel Hr1 Hr2 Hp Hnd1.
  assert (Hnd2 : NoDup (map fst res2)).
  { eapply Permutation_NoDup; [apply Permutation_map, Hp | exact Hnd1]. }
  destruct fuel as [|[|fuel]]; try lia.
  unfold reply in Hr1, Hr2. simpl. rewrite Hr1, Hr2. simpl.
  destruct (all_or_some I res1) as [Hall1 | Hsome1].
  - assert (Hall2 : forall t b, In (t, b) res2 -> snd (DecodeBig I b) = None).
    { intros t b Hin. apply (Hall1 t b).
      eapply Permutation_in; [apply Permutation_sym, Hp | exact Hin]. }
    destruct (decode_balances_all I res1 [] Hnd1 Hall1) as (m1 & -> & Hget1).
    destruct (decode_balances_all I res2 [] Hnd2 Hall2) as (m2 & -> & Hget2).
    do 4 eexists. split; [reflexivity|]. split; [reflexivity|].
    split; [tauto|].
    intros resp1 resp2 [= <-] [= <-] t.
    rewrite Hget1, Hget2, (find_entry_Permutation t res1 res2 Hp Hnd1). reflexivity.
  - assert (Hsome2 : exists t b, In (t, b) res2 /\ snd (DecodeBig I b) <> None).
    { destruct Hsome1 as (t & b & Hin & Hbad). exists t, b. split; [|exact Hbad].
      eapply Permutation_in; [exact Hp | exact Hin]. }
    destruct (decode_balances_some I res1 [] Hsome1) as (t1 & b1 & e1 & _ & _ & ->).
    destruct (decode_balances_some I res2 [] Hsome2) as (t2 & b2 & e2 & _ & _ & ->).
    do 4 eexists. split; [reflexivity|]. split; [reflexivity|].
    split; [split; discriminate|].
    intros resp1 resp2 [=].
Qed.

Lemma ZksGetAllAccountBalances_whatever_the_order_witness :
  exists out1 err1 out2 err2,
    runQ 2 (toy_replies false false) [] (ZksGetAllAccountBalances toy 9%Z)
    = QReturned (out1, err1) ([] ++ [called "zks_getAllAccountBalances" [QAddress 9%Z]])
    /\ runQ 2 (toy_replies false true) [] (ZksGetAllAccountBalances toy 9%Z)
       = QReturned (out2, err2) ([] ++ [called "zks_getAllAccountBalances" [QAddress 9%Z]])
    /\ (err1 = None <-> err2 = None)
    /\ (forall resp1 resp2, out1 = Some resp1 -> out2 = Some resp2 ->
                            forall t, get_balance t resp1 = get_balance t resp2).
Proof.
  apply (ZksGetAllAccountBalances_whatever_the_order
           toy (toy_replies false false) (toy_replies false true) [] [] 9%Z
           [(1%Z, "0x10"%string); (2%Z, "0x0"%string)]
           [(2%Z, "0x0"%string); (1%Z, "0x10"%string)] 2 (le_n 2) eq_refl eq_refl).
  - apply perm_swap.
  - repeat constructor; simpl; intuition discriminate.
Defined.
